(** * appix: the [watch] command and the frontend upload

    A shallow embedding of two source files of the appix command line tool:

    - [appcatalog/frontendUpload.go]: [UploadToFrontend], which posts the
      packaged app to the frontend and extracts the polling link from the
      JSON answer;
    - [watch.go]: the [watch] command, a four-state machine driven by a
      [select] loop over three channels, together with [doPush].

    Calls that leave the two files (the HTTP client, the JSON decoder, the
    file watcher, the push pipeline, the live-reload server, the logger) are
    kept as outcomes supplied by the environment or as effects recorded in a
    trace. *)

From Stdlib Require Import ZArith NArith Lia Ascii String.
From stdpp Require Import base list strings gmap.

(** ** Go's [strings.TrimSpace]

    Go strings are byte sequences and [strings.TrimSpace] removes leading and
    trailing runes for which [unicode.IsSpace] holds. A rune is recognised at
    a position exactly when its (shortest) UTF-8 encoding starts there, and
    at the end exactly when its encoding ends there, so the function is
    written on bytes. *)
Module GoStrings.

(** '\t', '\n', '\v', '\f', '\r' and ' '. *)
Definition isSpace1 (b : N) : bool :=
  ((9 <=? b) && (b <=? 13) || (b =? 32))%N.

(** U+0085 (NEL) and U+00A0 (NBSP). *)
Definition isSpace2 (b0 b1 : N) : bool :=
  ((b0 =? 0xC2) && ((b1 =? 0x85) || (b1 =? 0xA0)))%N.

(** U+1680, U+2000..U+200A, U+2028, U+2029, U+202F, U+205F and U+3000. *)
Definition isSpace3 (b0 b1 b2 : N) : bool :=
  ((b0 =? 0xE1) && (b1 =? 0x9A) && (b2 =? 0x80)
   || (b0 =? 0xE2) && (b1 =? 0x80)
      && ((0x80 <=? b2) && (b2 <=? 0x8A)
          || (b2 =? 0xA8) || (b2 =? 0xA9) || (b2 =? 0xAF))
   || (b0 =? 0xE2) && (b1 =? 0x81) && (b2 =? 0x9F)
   || (b0 =? 0xE3) && (b1 =? 0x80) && (b2 =? 0x80))%N.

(** Strips white space from the front of [s]. With [fromEnd] the list is
    read as a reversed string, so the bytes of a rune come last byte
    first. *)
Fixpoint trim (fromEnd : bool) (s : list ascii) : list ascii :=
  match s with
  | [] => []
  | c0 :: s1 =>
    let b0 := N_of_ascii c0 in
    if isSpace1 b0 then trim fromEnd s1 else
    match s1 with
    | [] => s
    | c1 :: s2 =>
      let b1 := N_of_ascii c1 in
      if (if fromEnd then isSpace2 b1 b0 else isSpace2 b0 b1)
      then trim fromEnd s2 else
      match s2 with
      | [] => s
      | c2 :: s3 =>
        let b2 := N_of_ascii c2 in
        if (if fromEnd then isSpace3 b2 b1 b0 else isSpace3 b0 b1 b2)
        then trim fromEnd s3 else s
      end
    end
  end.

Definition TrimSpace (s : string) : string :=
  string_of_list_ascii
    (rev (trim true (rev (trim false (list_ascii_of_string s))))).

(** Go's [len] of a string: its number of bytes. *)
Definition len (s : string) : Z := Z.of_nat (String.length s).

End GoStrings.

(** ** Package [appcatalog] *)
Module appcatalog.

Import GoStrings.

(** A non-nil Go [error]: either one handed back by a call that leaves the
    file, or one built by [fmt.Errorf]. A possibly nil [error] is an
    [option error]. *)
Inductive error : Type :=
| ExternalError (msg : string)
| Errorf (format : string) (operands : list Z).

(** The part of [*http.Response] the function looks at: the status code
    and what [ioutil.ReadAll] gives for the body. *)
Record Response : Type := {
  StatusCode : Z;
  Body : error + string
}.

Inductive LogLine : Type :=
| Println (msg : string)
| PrintlnError (err : error)
| logServerResponse (response : Response).

Definition StatusOK : Z := 200.

(** What the function calls outside its file.
    [CreateMultiFileUploadRequest] lives in another file of the package;
    [client.Do] and [json.Unmarshal] are library calls. Each yields a
    value or a non-nil error. [Request] stands for [*http.Request]. *)
Class Frontend : Type := {
  Request : Type;
  CreateMultiFileUploadRequest :
    string -> gmap string string -> gmap string string -> bool ->
    error + Request;
  client_Do : Request -> error + Response;
  json_Unmarshal : string -> error + gmap string (gmap string string)
}.

Section UploadToFrontend.

Context `{Frontend}.

(** [responseObject["links"]["progress"]]: a missing key of a Go map
    reads as the zero value (the nil map, the empty string). *)
Definition progressOf (responseObject : gmap string (gmap string string))
  : string :=
  default "" (default ∅ (responseObject !! "links") !! "progress").

Definition UploadToFrontend
    (uploadURI zapFile appName sessionID : string) (verbose : bool)
  : list LogLine * (string * option error) :=
  let files : gmap string string := {[ "file" := zapFile ]} in
  let params : gmap string string := {[ "name" := appName ]} in
  let log1 :=
    if verbose
    then [Println ("Uploading the app to the Express frontend: " +:+ uploadURI);
          Println "Creating multi-file upload request"]
    else [] in
  match CreateMultiFileUploadRequest uploadURI files params verbose with
  | inl err =>
    (log1 ++ [Println "Creating the HTTP request failed."], ("", Some err))
  | inr request =>
    let log2 :=
      log1 ++
      (if verbose
       then [Println "Multi-file upload request created, proceeding to call front-end"]
       else []) in
    match client_Do request with
    | inl err =>
      (log2 ++ [Println "Call to the Express frontend failed."],
       ("", Some err))
    | inr response =>
      let log3 :=
        log2 ++ (if verbose then [logServerResponse response] else []) in
      if bool_decide (StatusCode response ≠ StatusOK) then
        (log3,
         ("", Some (Errorf "Uploading failed, the frontend returned status code %v"
                           [StatusCode response])))
      else
        match Body response with
        | inl err =>
          (log3 ++ [Println "Error reading response from the frontend."],
           ("", Some err))
        | inr responseBody =>
          match json_Unmarshal responseBody with
          | inl err =>
            (log3 ++ (if verbose then [PrintlnError err] else []),
             ("", Some err))
          | inr responseObject =>
            let progressUri := progressOf responseObject in
            if bool_decide (len (TrimSpace progressUri) = 0%Z) then
              (log3,
               ("", Some (Errorf "Uploading failed, the app catalog did not return a valid response" [])))
            else
              (log3 ++ [Println "The app has been uploaded to the frontend successfully."],
               (progressUri, None))
          end
        end
    end
  end.

(** The one path on which nothing fails: every call succeeds, the status
    is 200 and [links.progress] is present and not blank. *)
Definition allStepsSucceed
    (uploadURI zapFile appName : string) (verbose : bool)
    (progressUri : string) : Prop :=
  ∃ request response responseBody responseObject,
    CreateMultiFileUploadRequest uploadURI {[ "file" := zapFile ]}
                                 {[ "name" := appName ]} verbose
      = inr request
    ∧ client_Do request = inr response
    ∧ StatusCode response = StatusOK
    ∧ Body response = inr responseBody
    ∧ json_Unmarshal responseBody = inr responseObject
    ∧ progressUri = progressOf responseObject
    ∧ len (TrimSpace progressUri) ≠ 0%Z.

(** The six ways to fail, each with the error it hands back. *)
Inductive failure (uploadURI zapFile appName : string) (verbose : bool)
  : error -> Prop :=
| requestCreationFails err :
    CreateMultiFileUploadRequest uploadURI {[ "file" := zapFile ]}
                                 {[ "name" := appName ]} verbose
      = inl err ->
    failure uploadURI zapFile appName verbose err
| transportFails request err :
    CreateMultiFileUploadRequest uploadURI {[ "file" := zapFile ]}
                                 {[ "name" := appName ]} verbose
      = inr request ->
    client_Do request = inl err ->
    failure uploadURI zapFile appName verbose err
| statusNotOK request response :
    CreateMultiFileUploadRequest uploadURI {[ "file" := zapFile ]}
                                 {[ "name" := appName ]} verbose
      = inr request ->
    client_Do request = inr response ->
    StatusCode response ≠ StatusOK ->
    failure uploadURI zapFile appName verbose
      (Errorf "Uploading failed, the frontend returned status code %v"
              [StatusCode response])
| bodyReadFails request response err :
    CreateMultiFileUploadRequest uploadURI {[ "file" := zapFile ]}
                                 {[ "name" := appName ]} verbose
      = inr request ->
    client_Do request = inr response ->
    StatusCode response = StatusOK ->
    Body response = inl err ->
    failure uploadURI zapFile appName verbose err
| unmarshalFails request response responseBody err :
    CreateMultiFileUploadRequest uploadURI {[ "file" := zapFile ]}
                                 {[ "name" := appName ]} verbose
      = inr request ->
    client_Do request = inr response ->
    StatusCode response = StatusOK ->
    Body response = inr responseBody ->
    json_Unmarshal responseBody = inl err ->
    failure uploadURI zapFile appName verbose err
| progressBlank request response responseBody responseObject :
    CreateMultiFileUploadRequest uploadURI {[ "file" := zapFile ]}
                                 {[ "name" := appName ]} verbose
      = inr request ->
    client_Do request = inr response ->
    StatusCode response = StatusOK ->
    Body response = inr responseBody ->
    json_Unmarshal responseBody = inr responseObject ->
    len (TrimSpace (progressOf responseObject)) = 0%Z ->
    failure uploadURI zapFile appName verbose
      (Errorf "Uploading failed, the app catalog did not return a valid response" []).

End UploadToFrontend.

End appcatalog.

(** ** Package [appix]: the [watch] command *)
Module appix.

(** The four constants declared with [iota]. *)
Inductive WatcherState : Type :=
| waiting
| initialDelay
| pushing
| pushingAndGotEvent.

#[global] Instance WatcherState_eq_dec : EqDecision WatcherState.
Proof. solve_decision. Defined.

Definition iota (s : WatcherState) : Z :=
  match s with
  | waiting => 0
  | initialDelay => 1
  | pushing => 2
  | pushingAndGotEvent => 3
  end.

(** The package-level variables of [watch.go]. The first three are set by
    the command line parser before the action runs. *)
Record Globals : Type := {
  appPath : string;
  noBrowser : bool;
  timeout : Z;
  watcherState : WatcherState
}.

Definition setState (s : WatcherState) (g : Globals) : Globals :=
  {| appPath := appPath g; noBrowser := noBrowser g;
     timeout := timeout g; watcherState := s |}.

(** The variables as they are when the action starts: the flags as parsed,
    [watcherState] at its initialiser. *)
Definition parsed (path : string) (noBrowserFlag : bool) (timeoutFlag : Z)
  : Globals :=
  {| appPath := path; noBrowser := noBrowserFlag;
     timeout := timeoutFlag; watcherState := waiting |}.

(** The two [chan int] of the action. ([fileWatch] carries events and is
    an input of its own below.) *)
Inductive Chan : Type :=
| initialDelayDone
| pushDone.

#[global] Instance Chan_eq_dec : EqDecision Chan.
Proof. solve_decision. Defined.

(** What [watch.go] uses from outside: the types it passes through, the
    [Verbose] field of [GlobalArgs], [notify.EventInfo.Path], the
    [filepath] and [path] functions, [notify.Watch] and the ignore rules
    ([IgnoreFilePath], another file of the package). *)
Class Host : Type := {
  Config : Type;
  GlobalArgs : Type;
  Logger : Type;
  EventInfo : Type;
  error : Type;
  Verbose : GlobalArgs -> bool;
  Path : EventInfo -> string;
  filepath_Abs : string -> error + string;
  filepath_Rel : string -> string -> error + string;
  path_Join : string -> string -> string;
  notify_Watch : string -> option error;
  IgnoreFilePath : string -> bool
}.

Section Watch.

Context `{Host}.

(** The arguments of one call of [push], in the order of the call in
    [doPush]. [push] is defined in another file; its third parameter
    receives [!openBrowser]. *)
Record PushCall : Type := {
  push_config : Config;
  push_appPath : string;
  push_third : bool;
  push_wait : Z;
  push_timeout : Z;
  push_localFrontend : bool;
  push_args : GlobalArgs;
  push_logger : Logger
}.

Inductive LogOperand : Type :=
| Str (s : string)
| Event (ei : EventInfo).

(** The calls with an effect outside the state variable. [Send c] is
    [c <- 0]; [time_AfterFunc ms c] is
    [time.AfterFunc(ms*time.Millisecond, func() { c <- 0 })];
    [go_doPush b d] is
    [go doPush(config, args, b, localFrontend, d, logger)]. *)
Inductive Effect : Type :=
| log_Println (operands : list LogOperand)
| log_Printf (format : string) (operands : list LogOperand)
| watch (pattern : string)
| livereload_StartServer
| livereload_SendReload
| push (call : PushCall)
| Send (c : Chan)
| time_AfterFunc (ms : N) (c : Chan)
| go_doPush (openBrowser : bool) (done : option Chan).

(** [doPush], as the sequence of its effects. [done = None] is the nil
    channel. *)
Definition doPush (g : Globals) (config : Config) (args : GlobalArgs)
    (openBrowser localFrontend : bool) (done : option Chan)
    (logger : Logger) : list Effect :=
  [push {| push_config := config; push_appPath := appPath g;
           push_third := negb openBrowser; push_wait := 180;
           push_timeout := timeout g;
           push_localFrontend := localFrontend;
           push_args := args; push_logger := logger |}]
  ++ (if negb openBrowser then [livereload_SendReload] else [])
  ++ (match done with Some c => [Send c] | None => [] end).

(** The parameters of [RegisterWatch] and its flag variable, as the
    action closure captures them. *)
Record Captured : Type := {
  config : Config;
  args : GlobalArgs;
  logger : Logger;
  localFrontend : bool
}.

Definition newline : string := String (ascii_of_nat 10) EmptyString.

(** [case ei := <-fileWatch]. A [break] leaves the [select], not the
    loop. *)
Definition onFileWatch (c : Captured) (absPath : string) (ei : EventInfo)
    (g : Globals) : Globals * list Effect :=
  let details :=
    if Verbose (args c)
    then [log_Println [Str "File change event details:"; Event ei]]
    else [] in
  let filePath := Path ei in
  match filepath_Rel absPath filePath with
  | inl _ =>
    (g, details ++
        [log_Printf ("Error obtaining relative file path to %s" +:+ newline)
                    [Str filePath]])
  | inr relPath =>
    if IgnoreFilePath relPath then
      (g, details ++
          (if Verbose (args c)
           then [log_Println [Str "Ignoring file changes:"; Str filePath]]
           else []))
    else if decide (watcherState g = waiting) then
      (setState initialDelay g,
       details ++ [time_AfterFunc 100 initialDelayDone])
    else if decide (watcherState g = pushing) then
      (setState pushingAndGotEvent g, details)
    else
      (g, details)
  end.

(** [case <-initialDelayDone]. *)
Definition onInitialDelayDone (g : Globals) : Globals * list Effect :=
  (setState pushing g,
   [log_Println [Str "File change detected, executing appix push."];
    go_doPush false (Some pushDone)]).

(** [case <-pushDone]. *)
Definition onPushDone (g : Globals) : Globals * list Effect :=
  if decide (watcherState g = pushingAndGotEvent) then
    (setState pushing g, [go_doPush false (Some pushDone)])
  else
    (setState waiting g,
     [log_Println [Str "Push done, watching for file changes."]]).

(** What the [select] can receive. *)
Inductive Input : Type :=
| FileWatch (ei : EventInfo)
| InitialDelayDone
| PushDone.

(** One turn of the [for { select { ... } }] loop. *)
Definition selectCase (c : Captured) (absPath : string) (i : Input)
    (g : Globals) : Globals * list Effect :=
  match i with
  | FileWatch ei => onFileWatch c absPath ei g
  | InitialDelayDone => onInitialDelayDone g
  | PushDone => onPushDone g
  end.

(** A notification the filter lets through. *)
Definition relevant (absPath : string) (ei : EventInfo) : bool :=
  match filepath_Rel absPath (Path ei) with
  | inl _ => false
  | inr relPath => negb (IgnoreFilePath relPath)
  end.

(** *** The loop among its goroutines

    The loop owns [watcherState]. Around it run the timer callbacks of
    [time.AfterFunc] and the goroutines started with [go doPush]; they
    reach the loop only by sending on the two unbuffered channels, so a
    send completes when the loop receives it. Time is a counter of
    milliseconds since the loop started. *)
Record World : Type := {
  globals : Globals;
  absPath : string;
  now : N;
  (** armed timers whose callback has not completed its send: the time
      at which the callback runs and the channel it sends on *)
  timers : list (N * Chan);
  (** the [doPush] goroutines, each as the effects it still has to
      perform *)
  goroutines : list (list Effect);
  (** the effects performed so far, oldest first *)
  trace : list Effect
}.

Definition setGlobals (g : Globals) (w : World) : World :=
  {| globals := g; absPath := absPath w; now := now w;
     timers := timers w; goroutines := goroutines w; trace := trace w |}.
Definition setNow (t : N) (w : World) : World :=
  {| globals := globals w; absPath := absPath w; now := t;
     timers := timers w; goroutines := goroutines w; trace := trace w |}.
Definition setTimers (ts : list (N * Chan)) (w : World) : World :=
  {| globals := globals w; absPath := absPath w; now := now w;
     timers := ts; goroutines := goroutines w; trace := trace w |}.
Definition setGoroutines (gs : list (list Effect)) (w : World) : World :=
  {| globals := globals w; absPath := absPath w; now := now w;
     timers := timers w; goroutines := gs; trace := trace w |}.
Definition record (e : Effect) (w : World) : World :=
  {| globals := globals w; absPath := absPath w; now := now w;
     timers := timers w; goroutines := goroutines w;
     trace := trace w ++ [e] |}.

(** Performing one effect: it is recorded; a timer is armed for
    [now + ms]; a [go] statement adds a goroutine running [doPush]. *)
Definition perform (c : Captured) (e : Effect) (w : World) : World :=
  let w := record e w in
  match e with
  | time_AfterFunc ms ch => setTimers (timers w ++ [((now w + ms)%N, ch)]) w
  | go_doPush openBrowser done =>
    setGoroutines
      (goroutines w ++
       [doPush (globals w) (config c) (args c) openBrowser
               (localFrontend c) done (logger c)]) w
  | _ => w
  end.

Definition performAll (c : Captured) (es : list Effect) (w : World)
  : World :=
  fold_left (fun w e => perform c e w) es w.

(** The loop takes [i] from its channel and runs the matching case. *)
Definition deliver (c : Captured) (i : Input) (w : World) : World :=
  let '(g, es) := selectCase c (absPath w) i (globals w) in
  performAll c es (setGlobals g w).

(** The first timer on [ch] that is due at time [t], removed. *)
Fixpoint takeTimer (ch : Chan) (t : N) (ts : list (N * Chan))
  : option (list (N * Chan)) :=
  match ts with
  | [] => None
  | (due, ch') :: ts' =>
    if decide (ch' = ch) then
      if (due <=? t)%N then Some ts'
      else cons (due, ch') <$> takeTimer ch t ts'
    else cons (due, ch') <$> takeTimer ch t ts'
  end.

(** The first goroutine that is blocked sending on [ch], past its send;
    a goroutine with nothing left to do is gone. *)
Fixpoint takeSender (ch : Chan) (gs : list (list Effect))
  : option (list (list Effect)) :=
  match gs with
  | [] => None
  | g :: gs' =>
    match g with
    | Send ch' :: rest =>
      if decide (ch' = ch)
      then Some (match rest with [] => gs' | _ => rest :: gs' end)
      else cons g <$> takeSender ch gs'
    | _ => cons g <$> takeSender ch gs'
    end
  end.

Definition isSend (e : Effect) : bool :=
  match e with Send _ => true | _ => false end.

(** What can happen next: time passes, the [select] receives, or
    goroutine number [k] performs its next effect. *)
Inductive Label : Type :=
| Tick (d : N)
| Receive (i : Input)
| Advance (k : nat).

(** One step; [None] when the step cannot happen in [w] (no timer is
    due, no goroutine is at its send, goroutine [k] does not exist or
    waits for the loop). The file watcher can deliver at any time. *)
Definition step (c : Captured) (l : Label) (w : World) : option World :=
  match l with
  | Tick d => Some (setNow (now w + d)%N w)
  | Receive (FileWatch ei) => Some (deliver c (FileWatch ei) w)
  | Receive InitialDelayDone =>
    match takeTimer initialDelayDone (now w) (timers w) with
    | Some ts =>
      Some (deliver c InitialDelayDone
                    (record (Send initialDelayDone) (setTimers ts w)))
    | None => None
    end
  | Receive PushDone =>
    match takeSender pushDone (goroutines w) with
    | Some gs =>
      Some (deliver c PushDone
                    (record (Send pushDone) (setGoroutines gs w)))
    | None => None
    end
  | Advance k =>
    match goroutines w !! k with
    | Some (e :: rest) =>
      if isSend e then None
      else
        Some (perform c e
                (setGoroutines
                   (match rest with
                    | [] => delete k (goroutines w)
                    | _ => <[k := rest]> (goroutines w)
                    end) w))
    | _ => None
    end
  end.

Fixpoint run (c : Captured) (ls : list Label) (w : World)
  : option World :=
  match ls with
  | [] => Some w
  | l :: ls' =>
    match step c l w with
    | Some w' => run c ls' w'
    | None => None
    end
  end.

(** The action of the command up to the loop: both fatal exits, then
    the server, the first push (synchronous, nil channel) and a
    reload. *)
Inductive Outcome : Type :=
| Fatal (err : error)
| Watching (w : World).

Definition startup (c : Captured) (g : Globals) (absPath : string)
  : list Effect :=
  [watch (path_Join absPath "..."); livereload_StartServer]
  ++ doPush g (config c) (args c) true (localFrontend c) None (logger c)
  ++ [livereload_SendReload].

Definition Action (c : Captured) (g : Globals) : Outcome :=
  match filepath_Abs (appPath g) with
  | inl err => Fatal err
  | inr absPath =>
    match notify_Watch (path_Join absPath "...") with
    | Some err => Fatal err
    | None =>
      Watching {| globals := g; absPath := absPath; now := 0;
                  timers := []; goroutines := [];
                  trace := startup c g absPath |}
    end
  end.

(** The worlds a watch session can be in. *)
Definition reachable (c : Captured) (g : Globals) (w : World) : Prop :=
  watcherState g = waiting ∧
  ∃ w0 ls, Action c g = Watching w0 ∧ run c ls w0 = Some w.

Definition isGo (e : Effect) : bool :=
  match e with go_doPush _ _ => true | _ => false end.
Definition isAfterFunc (e : Effect) : bool :=
  match e with time_AfterFunc _ _ => true | _ => false end.
Definition isPush (e : Effect) : bool :=
  match e with push _ => true | _ => false end.
Definition isSendReload (e : Effect) : bool :=
  match e with livereload_SendReload => true | _ => false end.

(** Pushes the loop has started so far, one for each [go doPush]. (The
    push of the startup is a plain call: it has returned before the
    loop begins.) *)
Definition pushesStarted (w : World) : nat :=
  length (filter (fun e => isGo e = true) (trace w)).

Definition timersArmed (w : World) : nat :=
  length (filter (fun e => isAfterFunc e = true) (trace w)).

(** Pushes in flight: the goroutines that have not finished. *)
Definition inFlight (w : World) : nat := length (goroutines w).

(** A [doPush] goroutine of the loop at one of its three points: before
    [push], before the reload, at its send. *)
Definition pushGoroutine (r : list Effect) : Prop :=
  (∃ call, r = [push call; livereload_SendReload; Send pushDone])
  ∨ r = [livereload_SendReload; Send pushDone]
  ∨ r = [Send pushDone].

(** What each state says about the timers and the goroutines. *)
Definition invariant (w : World) : Prop :=
  match watcherState (globals w) with
  | waiting => timers w = [] ∧ goroutines w = []
  | initialDelay =>
    (∃ due, timers w = [(due, initialDelayDone)]) ∧ goroutines w = []
  | pushing | pushingAndGotEvent =>
    timers w = [] ∧ ∃ r, goroutines w = [r] ∧ pushGoroutine r
  end.

(** Notifications arriving one after the other, each [d] milliseconds
    after the step before it. *)
Definition burst (evs : list (N * EventInfo)) : list Label :=
  flat_map (fun '(d, ei) => [Tick d; Receive (FileWatch ei)]) evs.

Definition elapsed (evs : list (N * EventInfo)) : N :=
  foldr (fun '(d, _) acc => (d + acc)%N) 0%N evs.

Definition isCompletion (l : Label) : bool :=
  match l with Receive PushDone => true | _ => false end.

Definition isRelevantNotification (absPath : string) (l : Label) : bool :=
  match l with
  | Receive (FileWatch ei) => relevant absPath ei
  | _ => false
  end.

(** For each call of [push] in a sequence of effects, whether the
    effect right after it is a reload notification. *)
Fixpoint reloadAfterPush (es : list Effect) : list bool :=
  match es with
  | [] => []
  | push _ :: es' =>
    match es' with
    | livereload_SendReload :: _ => true
    | _ => false
    end :: reloadAfterPush es'
  | _ :: es' => reloadAfterPush es'
  end.

(** The lines the loop logs before it looks at the state. *)
Definition details (c : Captured) (ei : EventInfo) : list Effect :=
  if Verbose (args c)
  then [log_Println [Str "File change event details:"; Event ei]]
  else [].

(** *** What has been done and what is still to do *)

Definition isSendOn (ch : Chan) (e : Effect) : bool :=
  match e with Send ch' => bool_decide (ch' = ch) | _ => false end.

(** The effects of one kind performed so far. *)
Definition performed (f : Effect -> bool) (w : World) : nat :=
  length (filter (fun e => f e = true) (trace w)).

(** The goroutines that still have an effect of one kind to perform. *)
Definition pending (f : Effect -> bool) (w : World) : nat :=
  length (filter (fun r => existsb f r = true) (goroutines w)).

(** The calls of [push] in a sequence of effects, in order. *)
Definition pushCalls (es : list Effect) : list PushCall :=
  flat_map (fun e => match e with push call => [call] | _ => [] end) es.

(** The call [doPush] makes with the flags [g]. *)
Definition pushCall (c : Captured) (g : Globals) (openBrowser : bool)
  : PushCall :=
  {| push_config := config c; push_appPath := appPath g;
     push_third := negb openBrowser; push_wait := 180;
     push_timeout := timeout g; push_localFrontend := localFrontend c;
     push_args := args c; push_logger := logger c |}.

(** The steps that bring a world with a pending change to its next push:
    the rest of the debounce delay and the expiry, or the rest of the push
    in flight and its completion. *)
Definition untilNextPush (w : World) : list Label :=
  match watcherState (globals w) with
  | waiting => []
  | initialDelay =>
    match timers w with
    | (due, _) :: _ => [Tick (due - now w); Receive InitialDelayDone]
    | [] => []
    end
  | pushing | pushingAndGotEvent =>
    match goroutines w with
    | r :: _ => replicate (length r - 1) (Advance 0) ++ [Receive PushDone]
    | [] => []
    end
  end.

(** 1 while a change is waiting for its push (the loop is in
    [initialDelay] or in [pushingAndGotEvent]), else 0. *)
Definition changePending (w : World) : nat :=
  match watcherState (globals w) with
  | initialDelay | pushingAndGotEvent => 1
  | waiting | pushing => 0
  end.

(** The relevant notifications among the steps [ls]. *)
Definition relevantTaken (absPath : string) (ls : list Label) : nat :=
  length (filter (fun l => isRelevantNotification absPath l = true) ls).

(** What the counts of a reachable world satisfy: started pushes are
    completed or in flight, armed timers have expired or are pending, and
    each push performs its call, its reload and its send in this order. *)
Definition ledger (w : World) : Prop :=
  pushesStarted w = performed (isSendOn pushDone) w + inFlight w
  ∧ timersArmed w = performed (isSendOn initialDelayDone) w + length (timers w)
  ∧ performed isPush w + pending isPush w = 1 + pushesStarted w
  ∧ performed isSendReload w + pending isSendReload w = 1 + pushesStarted w.

(** The flags are as parsed, every goroutine runs [doPush] with them, the
    pushes made are the one of the startup and then only change-triggered
    ones, and a pending timer is due within 100ms. *)
Definition flagsKept (c : Captured) (g : Globals) (w : World) : Prop :=
  globals w = setState (watcherState (globals w)) g
  ∧ Forall (fun r => ∃ k, r = drop k (doPush g (config c) (args c) false
                                         (localFrontend c) (Some pushDone)
                                         (logger c)))
           (goroutines w)
  ∧ (∃ n, pushCalls (trace w) =
          pushCall c g true :: replicate n (pushCall c g false))
  ∧ Forall (fun t => (t.1 <= now w + 100)%N) (timers w).

End Watch.

End appix.

(** ** A concrete environment

    One frontend and one host on which the definitions above evaluate. *)
Module Sample.

Import appcatalog appix.

Definition answer : gmap string (gmap string string) :=
  {[ "links" := {[ "progress" := " https://frontend/upload/progress?sessionId=123 " ]} ]}.

(** A frontend that answers 200 with a progress link, except that an
    empty upload address cannot be turned into a request. *)
#[export] Instance frontend : Frontend := {|
  Request := string;
  CreateMultiFileUploadRequest uploadURI _ _ _ :=
    if decide (uploadURI = "") then inl (ExternalError "empty address")
    else inr uploadURI;
  client_Do _ := inr {| StatusCode := 200; Body := inr "{}" |};
  json_Unmarshal _ := inr answer
|}.

(** Events are their paths; a path is relative to the root when it starts
    with a slash; everything under [.git] is ignored. *)
#[export] Instance host : Host := {|
  Config := unit;
  GlobalArgs := bool;
  Logger := unit;
  EventInfo := string;
  appix.error := string;
  Verbose v := v;
  Path ei := ei;
  filepath_Abs p := inr ("/home/dev/" +:+ p);
  filepath_Rel _ p :=
    match p with
    | String "/" rel => inr rel
    | _ => inl "Rel: can't make path relative"
    end;
  path_Join a b := a +:+ "/" +:+ b;
  notify_Watch _ := None;
  IgnoreFilePath rel := String.prefix ".git" rel
|}.

(** The notification for a change of the file at [path]. *)
Definition changed (path : string) : EventInfo := path.

Definition captured : Captured :=
  {| config := tt; args := false; logger := tt; localFrontend := false |}.

Definition flags : Globals := parsed "app" true 10.

Definition start : World :=
  {| globals := flags; absPath := "/home/dev/app"; now := 0;
     timers := []; goroutines := [];
     trace := startup captured flags "/home/dev/app" |}.

(** The world after the steps [ls] from [start] ([start] itself if they
    cannot all happen). *)
Definition after (ls : list Label) : World :=
  default start (run captured ls start).

(** One save, the debounce delay, the expiry: a push is in flight. *)
Definition toPushing : list Label :=
  [Receive (FileWatch (changed "/main.js")); Tick 100; Receive InitialDelayDone].

(** The push goes on and returns, two more saves arrive meanwhile, the
    goroutine sends its reload and reaches its send. *)
Definition duringPush : list Label :=
  [Advance 0; Receive (FileWatch (changed "/main.js")); Tick 20;
   Receive (FileWatch (changed "/style.css")); Advance 0].

Definition pushingWorld : World := after toPushing.
Definition flaggedWorld : World := after (toPushing ++ duringPush).
Definition restartedWorld : World :=
  after (toPushing ++ duringPush ++ [Receive PushDone]).

(** Two more saves 10ms and 50ms after a first one. *)
Definition saves : list (N * EventInfo) :=
  [(10%N, changed "/main.js"); (40%N, changed "/style.css")].

(** Time passes and two notifications are discarded. *)
Definition noise : list Label :=
  [Tick 5; Receive (FileWatch (changed "/.git/index"));
   Receive (FileWatch (changed "elsewhere.txt"))].

(** A push runs to its send with no save meanwhile. *)
Definition quietPush : list Label := [Advance 0; Tick 30; Advance 0].

Definition quietWorld : World := after (toPushing ++ quietPush).
Definition idleAgain : World :=
  after (toPushing ++ quietPush ++ [Receive PushDone]).

(** A frontend whose answer has no [links] entry. *)
Definition linkless : Frontend := {|
  Request := string;
  CreateMultiFileUploadRequest uploadURI _ _ _ := inr uploadURI;
  client_Do _ := inr {| StatusCode := 200; Body := inr "{}" |};
  json_Unmarshal _ := inr ∅
|}.

End Sample.

(** * Properties *)

(** ** [strings.TrimSpace] on samples *)
Module GoStringsFacts.

Import GoStrings.

Example TrimSpace_empty : TrimSpace "" = "".
Proof. reflexivity. Qed.

Example TrimSpace_ascii : TrimSpace "  a b  " = "a b".
Proof. reflexivity. Qed.

(** A no-break space (C2 A0) in front, an ideographic space (E3 80 80)
    behind, and a lone continuation byte, which is no space, inside. *)
Example TrimSpace_unicode :
  TrimSpace (String "194" (String "160" (String "x" (String "128"
            (String "227" (String "128" (String "128" ""))))))) =
  String "x" (String "128" "").
Proof. reflexivity. Qed.

Example TrimSpace_blank : len (TrimSpace (String "009" (String "010" " "))) = 0%Z.
Proof. reflexivity. Qed.

End GoStringsFacts.

(** ** [UploadToFrontend] *)
Module appcatalogFacts.

Import GoStrings appcatalog.

Section WithFrontend.

Context `{Frontend}.

(** C10. [UploadToFrontend] returns a nil error exactly when the
    returned address is non-empty after trimming white space; on each of
    the six failure paths (request creation, transport, status other
    than 200, reading the body, decoding the JSON, a missing or blank
    [links.progress]) it returns the empty string with that path's
    non-nil error; and a nil error comes only from the path on which
    every step succeeds. *)
Theorem UploadToFrontend_nil_error_iff_address
    (uploadURI zapFile appName sessionID : string) (verbose : bool) :
  let '(pollURI, err) :=
    (UploadToFrontend uploadURI zapFile appName sessionID verbose).2 in
  (err = None ↔ len (TrimSpace pollURI) ≠ 0%Z)
  ∧ (∀ e, failure uploadURI zapFile appName verbose e ->
          pollURI = "" ∧ err = Some e)
  ∧ (err = None ↔ allStepsSucceed uploadURI zapFile appName verbose pollURI)
  ∧ (err ≠ None ↔ ∃ e, failure uploadURI zapFile appName verbose e).
Proof.
  unfold UploadToFrontend, allStepsSucceed.
  destruct (CreateMultiFileUploadRequest _ _ _ _) as [e1|request] eqn:Hreq;
    cbn [snd].
  { split; [done|]. split; [|split].
    - intros e Hf. inversion Hf; subst; split; congruence.
    - split; [done|]. intros (? & ? & ? & ? & ? & _); congruence.
    - split; [|done]. intros _. exists e1. by constructor. }
  destruct (client_Do request) as [e2|response] eqn:Hdo; cbn [snd].
  { split; [done|]. split; [|split].
    - intros e Hf. inversion Hf; subst; split; congruence.
    - split; [done|]. intros (? & ? & ? & ? & ? & ? & _); congruence.
    - split; [|done]. intros _. exists e2. by econstructor 2. }
  case_bool_decide as Hst; cbn [snd].
  { split; [done|]. split; [|split].
    - intros e Hf. inversion Hf; subst; split; congruence.
    - split; [done|].
      intros (? & ? & ? & ? & ? & ? & ? & _); congruence.
    - split; [|done]. intros _. eexists. by econstructor 3. }
  destruct (Body response) as [e3|responseBody] eqn:Hbody; cbn [snd].
  { split; [done|]. split; [|split].
    - intros e Hf. inversion Hf; subst; split; congruence.
    - split; [done|].
      intros (? & ? & ? & ? & ? & ? & ? & ? & _); congruence.
    - split; [|done]. intros _. exists e3. by econstructor 4. }
  destruct (json_Unmarshal responseBody) as [e4|responseObject] eqn:Hjson;
    cbn [snd].
  { split; [done|]. split; [|split].
    - intros e Hf. inversion Hf; subst; split; congruence.
    - split; [done|].
      intros (? & ? & ? & ? & ? & ? & ? & ? & ? & _); congruence.
    - split; [|done]. intros _. exists e4. by econstructor 5. }
  case_bool_decide as Hblank; cbn [snd].
  { split; [done|]. split; [|split].
    - intros e Hf. inversion Hf; subst; split; congruence.
    - split; [done|].
      intros (? & ? & ? & ? & ? & ? & ? & ? & ? & ? & Hne).
      exfalso. apply Hne. reflexivity.
    - split; [|done]. intros _. eexists. by econstructor 6. }
  split; [done|]. split; [|split].
  - intros e Hf. inversion Hf; subst; congruence.
  - split; [|done]. intros _.
    by exists request, response, responseBody, responseObject.
  - split; [done|]. intros (e & Hf). inversion Hf; subst; congruence.
Qed.

End WithFrontend.

Import Sample.

(** On the sample frontend the call succeeds and hands back the link as
    the frontend sent it (untrimmed). *)
Example UploadToFrontend_sample :
  (UploadToFrontend "https://frontend/upload" "app.zap" "app" "123" false).2
  = (" https://frontend/upload/progress?sessionId=123 ", None).
Proof. vm_compute. reflexivity. Qed.

Example UploadToFrontend_sample_failure :
  (UploadToFrontend "" "app.zap" "app" "123" false).2
  = ("", Some (ExternalError "empty address")).
Proof. vm_compute. reflexivity. Qed.

End appcatalogFacts.

(** ** The [watch] loop *)
Module appixFacts.

Import appix.

Section WithHost.

Context `{Host}.

Implicit Types (c : Captured) (g : Globals) (w : World) (ei : EventInfo).

(** *** What one delivery does to the world *)

Lemma filter_snoc_true {A} (P : A -> Prop) `{∀ x, Decision (P x)}
    (l : list A) (x : A) :
  P x -> length (filter P (l ++ [x])) = S (length (filter P l)).
Proof.
  intros Hx. rewrite filter_app, length_app. cbn.
  rewrite decide_True by done. cbn. lia.
Qed.

Lemma filter_snoc_false {A} (P : A -> Prop) `{∀ x, Decision (P x)}
    (l : list A) (x : A) :
  ¬ P x -> length (filter P (l ++ [x])) = length (filter P l).
Proof.
  intros Hx. rewrite filter_app, length_app. cbn.
  rewrite decide_False by done. cbn. lia.
Qed.

Lemma performAll_details c ei w :
  performAll c (details c ei) w =
  {| globals := globals w; absPath := absPath w; now := now w;
     timers := timers w; goroutines := goroutines w;
     trace := trace w ++ details c ei |}.
Proof.
  unfold details. destruct (Verbose (args c)); cbn.
  - reflexivity.
  - rewrite app_nil_r. by destruct w.
Qed.

Lemma performAll_app c es1 es2 w :
  performAll c (es1 ++ es2) w = performAll c es2 (performAll c es1 w).
Proof. unfold performAll. apply fold_left_app. Qed.

(** A notification the filter lets through. *)
Lemma deliver_relevant c ei w :
  relevant (absPath w) ei = true ->
  deliver c (FileWatch ei) w =
  match watcherState (globals w) with
  | waiting =>
    {| globals := setState initialDelay (globals w);
       absPath := absPath w; now := now w;
       timers := timers w ++ [((now w + 100)%N, initialDelayDone)];
       goroutines := goroutines w;
       trace := (trace w ++ details c ei)
                ++ [time_AfterFunc 100 initialDelayDone] |}
  | pushing =>
    {| globals := setState pushingAndGotEvent (globals w);
       absPath := absPath w; now := now w; timers := timers w;
       goroutines := goroutines w; trace := trace w ++ details c ei |}
  | _ =>
    {| globals := globals w;
       absPath := absPath w; now := now w; timers := timers w;
       goroutines := goroutines w; trace := trace w ++ details c ei |}
  end.
Proof.
  unfold relevant, deliver, selectCase, onFileWatch. fold (details c ei).
  destruct (filepath_Rel _ _) as [|relPath]; [done|].
  destruct (IgnoreFilePath relPath); [done|]. intros _.
  destruct (watcherState (globals w)) eqn:Hst;
    repeat case_decide; try congruence; cbv beta iota;
    rewrite ?performAll_app, performAll_details; reflexivity.
Qed.

(** A notification the filter stops: only log lines are added. *)
Lemma deliver_discarded c ei w :
  relevant (absPath w) ei = false ->
  deliver c (FileWatch ei) w =
  {| globals := globals w; absPath := absPath w; now := now w;
     timers := timers w; goroutines := goroutines w;
     trace :=
       (trace w ++ details c ei) ++
       match filepath_Rel (absPath w) (Path ei) with
       | inl _ =>
         [log_Printf ("Error obtaining relative file path to %s" +:+ newline)
                     [Str (Path ei)]]
       | inr _ =>
         if Verbose (args c)
         then [log_Println [Str "Ignoring file changes:"; Str (Path ei)]]
         else []
       end |}.
Proof.
  unfold relevant, deliver, selectCase, onFileWatch. fold (details c ei).
  destruct (filepath_Rel _ _) as [|relPath].
  - intros _. rewrite performAll_app, performAll_details. cbn.
    by destruct w.
  - destruct (IgnoreFilePath relPath); [intros _|done].
    rewrite performAll_app, performAll_details.
    destruct (Verbose (args c)); cbn.
    + by destruct w.
    + rewrite app_nil_r. by destruct w.
Qed.

Lemma deliver_InitialDelayDone c w :
  deliver c InitialDelayDone w =
  {| globals := setState pushing (globals w);
     absPath := absPath w; now := now w; timers := timers w;
     goroutines :=
       goroutines w ++
       [doPush (setState pushing (globals w)) (config c) (args c) false
               (localFrontend c) (Some pushDone) (logger c)];
     trace :=
       (trace w ++
        [log_Println [Str "File change detected, executing appix push."]])
       ++ [go_doPush false (Some pushDone)] |}.
Proof. reflexivity. Qed.

Lemma deliver_PushDone c w :
  deliver c PushDone w =
  if decide (watcherState (globals w) = pushingAndGotEvent) then
    {| globals := setState pushing (globals w);
       absPath := absPath w; now := now w; timers := timers w;
       goroutines :=
         goroutines w ++
         [doPush (setState pushing (globals w)) (config c) (args c) false
                 (localFrontend c) (Some pushDone) (logger c)];
       trace := trace w ++ [go_doPush false (Some pushDone)] |}
  else
    {| globals := setState waiting (globals w);
       absPath := absPath w; now := now w; timers := timers w;
       goroutines := goroutines w;
       trace :=
         trace w ++
         [log_Println [Str "Push done, watching for file changes."]] |}.
Proof.
  unfold deliver, selectCase, onPushDone.
  destruct (decide _); reflexivity.
Qed.

(** *** The invariant *)

Lemma takeTimer_single ch t due :
  takeTimer ch t [(due, ch)] = if (due <=? t)%N then Some [] else None.
Proof. cbn. rewrite decide_True by done. by destruct (due <=? t)%N. Qed.

Lemma takeSender_pushGoroutine r :
  pushGoroutine r ->
  (r = [Send pushDone] ∧ takeSender pushDone [r] = Some [])
  ∨ (r ≠ [Send pushDone] ∧ takeSender pushDone [r] = None).
Proof.
  intros [[call ->]|[->| ->]]; cbn; [right|right|left]; done.
Qed.

Lemma invariant_start c g w0 :
  watcherState g = waiting -> Action c g = Watching w0 -> invariant w0.
Proof.
  unfold Action. intros Hg.
  destruct (filepath_Abs _); [done|].
  destruct (notify_Watch _); [done|].
  intros [= <-]. unfold invariant. cbn. by rewrite Hg.
Qed.

Lemma invariant_step c l w w' :
  invariant w -> step c l w = Some w' -> invariant w'.
Proof.
  unfold invariant. intros Hinv.
  destruct l as [d|[ei| |]|k]; cbn [step].
  - intros [= <-]. exact Hinv.
  - intros [= <-]. destruct (relevant (absPath w) ei) eqn:Hrel.
    + rewrite deliver_relevant by done.
      destruct (watcherState (globals w)) eqn:Hst; cbn; rewrite ?Hst;
        try exact Hinv.
      destruct Hinv as [-> ->]. split; [|done]. by eexists.
    + rewrite deliver_discarded by done. exact Hinv.
  - destruct (watcherState (globals w)) eqn:Hst.
    2: { destruct Hinv as [[due Hdue] Hgs]. rewrite Hdue, takeTimer_single.
         destruct (due <=? now w)%N; [|done]. intros [= <-].
         rewrite deliver_InitialDelayDone. cbn. rewrite Hgs. cbn.
         split; [done|]. eexists. split; [done|]. left. by eexists. }
    all: destruct Hinv as [Hts _]; by rewrite Hts.
  - destruct (watcherState (globals w)) eqn:Hst.
    1,2: destruct Hinv as [_ Hgs]; by rewrite Hgs.
    all: destruct Hinv as [Hts (r & Hgs & Hr)]; rewrite Hgs;
      destruct (takeSender_pushGoroutine _ Hr) as [[_ ->]|[_ ->]];
      [|done]; intros [= <-];
      rewrite deliver_PushDone; cbn; rewrite Hst;
      case_decide; try congruence; cbn; rewrite ?Hts.
    + done.
    + split; [done|]. eexists. split; [done|]. left. by eexists.
  - destruct (goroutines w !! k) as [[|e rest]|] eqn:Hk; try done.
    destruct (isSend e) eqn:He; [done|]. intros [= <-].
    destruct (watcherState (globals w)) eqn:Hst.
    1,2: destruct Hinv as [_ Hgs]; by rewrite Hgs in Hk.
    all: destruct Hinv as [Hts (r & Hgs & Hr)]; rewrite Hgs in Hk |- *;
      destruct k as [|k]; [|done]; cbn in Hk; injection Hk as ->;
      destruct Hr as [[call Hr]|[Hr|Hr]]; injection Hr as -> ->;
      try discriminate He; cbn; rewrite Hst; (split; [done|]);
      eexists; (split; [done|]); unfold pushGoroutine; auto.
Qed.

Lemma invariant_run c ls w w' :
  invariant w -> run c ls w = Some w' -> invariant w'.
Proof.
  revert w. induction ls as [|l ls IH]; intros w Hinv; cbn.
  - by intros [= <-].
  - destruct (step c l w) as [w1|] eqn:Hstep; [|done].
    apply IH. by eapply invariant_step.
Qed.

Lemma invariant_reachable c g w : reachable c g w -> invariant w.
Proof.
  intros (Hg & w0 & ls & Hstart & Hrun).
  eapply invariant_run; [|done]. by eapply invariant_start.
Qed.

Lemma reachable_step c g l w w' :
  reachable c g w -> step c l w = Some w' -> reachable c g w'.
Proof.
  intros (Hg & w0 & ls & Hstart & Hrun) Hstep. split; [done|].
  exists w0, (ls ++ [l]). split; [done|].
  clear Hstart. revert w0 Hrun. induction ls as [|l0 ls IH]; intros w0; cbn.
  - intros [= ->]. by rewrite Hstep.
  - destruct (step c l0 w0); [apply IH|done].
Qed.

Lemma reachable_run c g ls w w' :
  reachable c g w -> run c ls w = Some w' -> reachable c g w'.
Proof.
  revert w. induction ls as [|l ls IH]; intros w Hw; cbn.
  - by intros [= <-].
  - destruct (step c l w) as [w1|] eqn:Hstep; [|done].
    apply IH. by eapply reachable_step.
Qed.

(** *** Counting in the trace *)

Lemma pushesStarted_details c ei (t : list Effect) :
  length (filter (fun e => isGo e = true) (t ++ details c ei)) =
  length (filter (fun e => isGo e = true) t).
Proof.
  unfold details. destruct (Verbose (args c)).
  - by apply filter_snoc_false.
  - by rewrite app_nil_r.
Qed.

Lemma timersArmed_details c ei (t : list Effect) :
  length (filter (fun e => isAfterFunc e = true) (t ++ details c ei)) =
  length (filter (fun e => isAfterFunc e = true) t).
Proof.
  unfold details. destruct (Verbose (args c)).
  - by apply filter_snoc_false.
  - by rewrite app_nil_r.
Qed.

Ltac count :=
  unfold pushesStarted, timersArmed;
  cbn [trace record setGoroutines setTimers setGlobals setNow];
  repeat first
    [ rewrite filter_snoc_true by done
    | rewrite filter_snoc_false by done
    | rewrite pushesStarted_details
    | rewrite timersArmed_details ];
  try reflexivity.

(** *** The three inputs *)


(** C2. A completion signal taken by the loop: in
    [pushingAndGotEvent] the state becomes [pushing] and a new
    [doPush] goroutine is started in the same step, with no timer; in
    any other state the state becomes [waiting] and no push is
    started. *)
Theorem push_completed c w w' :
  step c (Receive PushDone) w = Some w' ->
  (∃ gs, takeSender pushDone (goroutines w) = Some gs ∧
     if decide (watcherState (globals w) = pushingAndGotEvent) then
       globals w' = setState pushing (globals w)
       ∧ goroutines w' =
           gs ++ [doPush (globals w') (config c) (args c) false
                         (localFrontend c) (Some pushDone) (logger c)]
       ∧ pushesStarted w' = S (pushesStarted w)
     else
       globals w' = setState waiting (globals w)
       ∧ goroutines w' = gs
       ∧ pushesStarted w' = pushesStarted w)
  ∧ timers w' = timers w
  ∧ timersArmed w' = timersArmed w
  ∧ now w' = now w.
Proof.
  cbn [step]. destruct (takeSender pushDone (goroutines w)) as [gs|];
    [|done].
  intros [= <-]. rewrite deliver_PushDone. cbn [globals record setGoroutines].
  split; [exists gs; split; [done|]|].
  - case_decide; cbn [globals goroutines]; (split; [done|]);
      (split; [done|]); by count.
  - case_decide; cbn [timers now]; (split; [done|]);
      (split; [|done]); by count.
Qed.

(** C9. A notification whose path cannot be made relative to the
    watched root, or whose relative path matches an ignore rule, only
    adds log lines (the error line always, the ignore line when
    verbose): the state variable, the timers and the goroutines are as
    before, no timer is armed and no push is started. *)
Theorem discarded_notification c ei w :
  (∃ err, filepath_Rel (absPath w) (Path ei) = inl err)
  ∨ (∃ relPath, filepath_Rel (absPath w) (Path ei) = inr relPath
                ∧ IgnoreFilePath relPath = true) ->
  let w' := deliver c (FileWatch ei) w in
  globals w' = globals w
  ∧ timers w' = timers w
  ∧ goroutines w' = goroutines w
  ∧ timersArmed w' = timersArmed w
  ∧ pushesStarted w' = pushesStarted w
  ∧ trace w' =
      (trace w ++ details c ei) ++
      match filepath_Rel (absPath w) (Path ei) with
      | inl _ =>
        [log_Printf ("Error obtaining relative file path to %s" +:+ newline)
                    [Str (Path ei)]]
      | inr _ =>
        if Verbose (args c)
        then [log_Println [Str "Ignoring file changes:"; Str (Path ei)]]
        else []
      end.
Proof.
  intros Hdiscard w'. subst w'.
  assert (relevant (absPath w) ei = false) as Hrel.
  { unfold relevant.
    destruct Hdiscard as [[err ->]|(relPath & -> & ->)]; done. }
  rewrite deliver_discarded by done. cbn [globals timers goroutines trace].
  repeat (split; [done|]). split; [|split; [|done]].
  - destruct (filepath_Rel _ _); [by count|].
    destruct (Verbose (args c)); [by count|].
    rewrite app_nil_r. by count.
  - destruct (filepath_Rel _ _); [by count|].
    destruct (Verbose (args c)); [by count|].
    rewrite app_nil_r. by count.
Qed.

(** *** Time and the watched root along a run *)

Lemma setState_same g : setState (watcherState g) g = g.
Proof. by destruct g. Qed.

Lemma deliver_frame c i w :
  now (deliver c i w) = now w ∧ absPath (deliver c i w) = absPath w.
Proof.
  destruct i as [ei| |].
  - destruct (relevant (absPath w) ei) eqn:Hrel.
    + rewrite deliver_relevant by done.
      by destruct (watcherState (globals w)).
    + by rewrite deliver_discarded.
  - by rewrite deliver_InitialDelayDone.
  - rewrite deliver_PushDone. by case_decide.
Qed.

Lemma perform_frame c e w :
  now (perform c e w) = now w ∧ absPath (perform c e w) = absPath w
  ∧ globals (perform c e w) = globals w.
Proof. by destruct e. Qed.

Lemma step_frame c l w w' :
  step c l w = Some w' -> (now w <= now w')%N ∧ absPath w' = absPath w.
Proof.
  destruct l as [d|[ei| |]|k]; cbn [step].
  - intros [= <-]. cbn. split; [lia|done].
  - intros [= <-]. destruct (deliver_frame c (FileWatch ei) w) as [-> ->].
    split; [lia|done].
  - destruct (takeTimer _ _ _); [|done]. intros [= <-].
    destruct (deliver_frame c InitialDelayDone
                (record (Send initialDelayDone) (setTimers l w)))
      as [-> ->].
    cbn. split; [lia|done].
  - destruct (takeSender _ _); [|done]. intros [= <-].
    destruct (deliver_frame c PushDone
                (record (Send pushDone) (setGoroutines l w))) as [-> ->].
    cbn. split; [lia|done].
  - destruct (goroutines w !! k) as [[|e rest]|]; try done.
    destruct (isSend e); [done|]. intros [= <-].
    match goal with
    | |- context [perform c e ?w0] =>
      destruct (perform_frame c e w0) as (-> & -> & _)
    end.
    cbn. split; [lia|done].
Qed.

Lemma run_frame c ls w w' :
  run c ls w = Some w' -> (now w <= now w')%N ∧ absPath w' = absPath w.
Proof.
  revert w. induction ls as [|l ls IH]; intros w; cbn.
  - intros [= <-]. split; [lia|done].
  - destruct (step c l w) as [w1|] eqn:Hstep; [|done]. intros Hrun.
    destruct (step_frame _ _ _ _ Hstep) as [Hle Hp].
    destruct (IH _ Hrun) as [Hle' Hp']. split; [lia|congruence].
Qed.

(** *** Inside the debounce window *)

Lemma step_in_window c l w w' due :
  watcherState (globals w) = initialDelay ->
  timers w = [(due, initialDelayDone)] ->
  goroutines w = [] ->
  step c l w = Some w' ->
  (now w' < due)%N ->
  globals w' = globals w ∧ timers w' = timers w ∧ goroutines w' = []
  ∧ pushesStarted w' = pushesStarted w
  ∧ timersArmed w' = timersArmed w.
Proof.
  intros Hst Hts Hgs.
  destruct l as [d|[ei| |]|k]; cbn [step].
  - by intros [= <-].
  - intros [= <-] _. destruct (relevant (absPath w) ei) eqn:Hrel.
    + rewrite deliver_relevant by done. rewrite Hst.
      cbn [globals timers goroutines]. repeat (split; [done|]).
      split; by count.
    + rewrite deliver_discarded by done.
      cbn [globals timers goroutines]. repeat (split; [done|]).
      destruct (filepath_Rel _ _); [split; by count|].
      destruct (Verbose (args c)); [split; by count|].
      rewrite app_nil_r. split; by count.
  - rewrite Hts, takeTimer_single.
    destruct (due <=? now w)%N eqn:Hdue; [|done]. intros [= <-].
    destruct (deliver_frame c InitialDelayDone
                (record (Send initialDelayDone) (setTimers [] w)))
      as [-> _].
    cbn. apply N.leb_le in Hdue. lia.
  - by rewrite Hgs.
  - by rewrite Hgs.
Qed.

Lemma run_in_window c ls w w' due :
  watcherState (globals w) = initialDelay ->
  timers w = [(due, initialDelayDone)] ->
  goroutines w = [] ->
  run c ls w = Some w' ->
  (now w' < due)%N ->
  globals w' = globals w ∧ timers w' = timers w ∧ goroutines w' = []
  ∧ pushesStarted w' = pushesStarted w
  ∧ timersArmed w' = timersArmed w.
Proof.
  revert w. induction ls as [|l ls IH]; intros w Hst Hts Hgs; cbn.
  - by intros [= <-].
  - destruct (step c l w) as [w1|] eqn:Hstep; [|done]. intros Hrun Hlt.
    destruct (run_frame _ _ _ _ Hrun) as [Hle _].
    destruct (step_in_window _ _ _ _ _ Hst Hts Hgs Hstep)
      as (Hg1 & Hts1 & Hgs1 & Hp1 & Ha1); [lia|].
    destruct (IH w1) as (Hg2 & Hts2 & Hgs2 & Hp2 & Ha2);
      [congruence..|done|done|].
    repeat split; congruence.
Qed.

Lemma run_burst c evs w :
  ∃ w', run c (burst evs) w = Some w'
        ∧ now w' = (now w + elapsed evs)%N.
Proof.
  revert w. induction evs as [|[d ei] evs IH]; intros w.
  - exists w. cbn. split; [done|lia].
  - destruct (IH (deliver c (FileWatch ei) (setNow (now w + d) w)))
      as (w' & Hrun & Hnow).
    exists w'. split; [done|]. rewrite Hnow.
    destruct (deliver_frame c (FileWatch ei) (setNow (now w + d) w))
      as [-> _].
    change (elapsed ((d, ei) :: evs)) with (d + elapsed evs)%N.
    cbn [now setNow]. lia.
Qed.

Lemma expiry_in_initialDelay c w due d :
  watcherState (globals w) = initialDelay ->
  timers w = [(due, initialDelayDone)] ->
  goroutines w = [] ->
  run c [Tick d; Receive InitialDelayDone] w =
  if (due <=? now w + d)%N then
    Some (deliver c InitialDelayDone
            (record (Send initialDelayDone)
                    (setTimers [] (setNow (now w + d) w))))
  else None.
Proof.
  intros Hst Hts Hgs. cbn [run step setNow now timers].
  rewrite Hts, takeTimer_single. by destruct (_ <=? _)%N.
Qed.

(** C4. From a reachable [waiting] world, a relevant notification and
    after it any further notifications, all within less than 100ms of
    the first: the loop takes them all, one timer is armed, due 100ms
    after the first notification whatever comes after it, no push is
    started and the expiry cannot be received yet. The expiry is
    received at a later time exactly when 100ms have passed since the
    first notification, and it starts exactly one push. *)
Theorem debounce_absorption c g w ei (rest : list (N * EventInfo)) :
  reachable c g w ->
  watcherState (globals w) = waiting ->
  relevant (absPath w) ei = true ->
  (elapsed rest < 100)%N ->
  ∃ w2,
    run c (Receive (FileWatch ei) :: burst rest) w = Some w2
    ∧ now w2 = (now w + elapsed rest)%N
    ∧ watcherState (globals w2) = initialDelay
    ∧ timers w2 = [((now w + 100)%N, initialDelayDone)]
    ∧ timersArmed w2 = S (timersArmed w)
    ∧ pushesStarted w2 = pushesStarted w
    ∧ inFlight w2 = 0
    ∧ step c (Receive InitialDelayDone) w2 = None
    ∧ (∀ d, (now w2 + d < now w + 100)%N ->
            run c [Tick d; Receive InitialDelayDone] w2 = None)
    ∧ (∀ d, (now w + 100 <= now w2 + d)%N ->
            ∃ w3, run c [Tick d; Receive InitialDelayDone] w2 = Some w3
                  ∧ watcherState (globals w3) = pushing
                  ∧ pushesStarted w3 = S (pushesStarted w)
                  ∧ timersArmed w3 = S (timersArmed w)
                  ∧ timers w3 = []
                  ∧ inFlight w3 = 1).
Proof.
  intros Hreach Hst Hrel Hwin.
  pose proof (invariant_reachable _ _ _ Hreach) as Hinv.
  unfold invariant in Hinv. rewrite Hst in Hinv. destruct Hinv as [Hts Hgs].
  set (w1 := deliver c (FileWatch ei) w).
  assert (globals w1 = setState initialDelay (globals w)
          ∧ timers w1 = [((now w + 100)%N, initialDelayDone)]
          ∧ goroutines w1 = [] ∧ now w1 = now w
          ∧ timersArmed w1 = S (timersArmed w)
          ∧ pushesStarted w1 = pushesStarted w)
    as (Hg1 & Hts1 & Hgs1 & Hnow1 & Ha1 & Hp1).
  { subst w1. rewrite deliver_relevant by done. rewrite Hst.
    cbn [globals timers goroutines now]. rewrite Hts, Hgs.
    repeat (split; [done|]). split; by count. }
  destruct (run_burst c rest w1) as (w2 & Hrun & Hnow2).
  assert (watcherState (globals w1) = initialDelay) as Hst1
    by by rewrite Hg1.
  destruct (run_in_window _ _ _ _ _ Hst1 Hts1 Hgs1 Hrun)
    as (Hg2 & Hts2 & Hgs2 & Hp2 & Ha2); [lia|].
  assert (watcherState (globals w2) = initialDelay) as Hst2
    by congruence.
  rewrite Hts1 in Hts2.
  exists w2. split; [cbn [run step]; by fold w1|]. split; [lia|]. split; [done|]. split; [done|].
  split; [congruence|]. split; [congruence|].
  split; [unfold inFlight; by rewrite Hgs2|].
  split; [|split].
  - cbn [step]. rewrite Hts2, takeTimer_single.
    destruct (_ <=? _)%N eqn:Hle; [|done]. apply N.leb_le in Hle. lia.
  - intros d Hd.
    rewrite (expiry_in_initialDelay _ _ _ _ Hst2 Hts2 Hgs2).
    destruct (_ <=? _)%N eqn:Hle; [|done]. apply N.leb_le in Hle. lia.
  - intros d Hd.
    rewrite (expiry_in_initialDelay _ _ _ _ Hst2 Hts2 Hgs2).
    destruct (_ <=? _)%N eqn:Hle; [|apply N.leb_gt in Hle; lia].
    eexists. split; [done|]. rewrite deliver_InitialDelayDone.
    cbn [globals timers goroutines setState watcherState record
         setTimers setNow inFlight].
    split; [done|]. rewrite Hgs2.
    unfold pushesStarted, timersArmed in *.
    split; [count; congruence|]. split; [count; congruence|]. done.
Qed.

(** *** While a push is in flight *)

Lemma invariant_inFlight w :
  invariant w ->
  inFlight w =
  match watcherState (globals w) with
  | waiting | initialDelay => 0
  | pushing | pushingAndGotEvent => 1
  end.
Proof.
  unfold invariant, inFlight.
  destruct (watcherState (globals w)).
  1,2: by intros [_ ->].
  all: by intros [_ (r & -> & _)].
Qed.

Lemma step_while_pushing c l w w' :
  invariant w ->
  watcherState (globals w) = pushing
  ∨ watcherState (globals w) = pushingAndGotEvent ->
  isCompletion l = false ->
  step c l w = Some w' ->
  globals w' =
    setState (if isRelevantNotification (absPath w) l
              then pushingAndGotEvent else watcherState (globals w))
             (globals w)
  ∧ pushesStarted w' = pushesStarted w
  ∧ timersArmed w' = timersArmed w.
Proof.
  intros Hinv Hst Hl.
  destruct l as [d|[ei| |]|k]; cbn [step isRelevantNotification];
    try discriminate Hl.
  - intros [= <-]. by rewrite setState_same.
  - intros [= <-]. destruct (relevant (absPath w) ei) eqn:Hrel.
    + rewrite deliver_relevant by done.
      destruct Hst as [Hst|Hst]; rewrite Hst; cbn [globals];
        (split; [|split; by count]); [done|].
      by rewrite <- Hst, setState_same.
    + rewrite deliver_discarded by done. cbn [globals].
      rewrite setState_same. split; [done|].
      destruct (filepath_Rel _ _); [split; by count|].
      destruct (Verbose (args c)); [split; by count|].
      rewrite app_nil_r. split; by count.
  - unfold invariant in Hinv.
    destruct Hst as [Hst|Hst]; rewrite Hst in Hinv;
      destruct Hinv as [-> _]; done.
  - unfold invariant in Hinv.
    destruct (goroutines w !! k) as [[|e rest]|] eqn:Hk; try done.
    destruct (isSend e) eqn:He; [done|]. intros [= <-].
    rewrite setState_same.
    destruct Hst as [Hst|Hst]; rewrite Hst in Hinv;
      destruct Hinv as [_ (r & Hgs & Hr)]; rewrite Hgs in Hk |- *;
      (destruct k as [|k]; [|done]); cbn in Hk; injection Hk as ->;
      destruct Hr as [[call Hr]|[Hr|Hr]]; injection Hr as -> ->;
      try discriminate He; cbn [perform globals record];
      (split; [done|]); split; by count.
Qed.

Lemma run_while_pushing c ls w w' :
  invariant w ->
  watcherState (globals w) = pushing
  ∨ watcherState (globals w) = pushingAndGotEvent ->
  forallb (fun l => negb (isCompletion l)) ls = true ->
  run c ls w = Some w' ->
  globals w' =
    setState (if existsb (isRelevantNotification (absPath w)) ls
              then pushingAndGotEvent else watcherState (globals w))
             (globals w)
  ∧ pushesStarted w' = pushesStarted w
  ∧ timersArmed w' = timersArmed w.
Proof.
  revert w. induction ls as [|l ls IH]; intros w Hinv Hst; cbn.
  - intros _ [= <-]. by rewrite setState_same.
  - intros [Hl Hls]%andb_prop. apply negb_true_iff in Hl.
    destruct (step c l w) as [w1|] eqn:Hstep; [|done]. intros Hrun.
    destruct (step_while_pushing _ _ _ _ Hinv Hst Hl Hstep)
      as (Hg1 & Hp1 & Ha1).
    destruct (step_frame _ _ _ _ Hstep) as [_ Hpath].
    assert (watcherState (globals w1) = pushing
            ∨ watcherState (globals w1) = pushingAndGotEvent) as Hst1.
    { rewrite Hg1. cbn.
      destruct (isRelevantNotification _ _); [by right|done]. }
    destruct (IH w1 (invariant_step _ _ _ _ Hinv Hstep) Hst1 Hls Hrun)
      as (Hg2 & Hp2 & Ha2).
    split; [|split; [by rewrite Hp2|by rewrite Ha2]].
    rewrite Hg2, Hg1, Hpath. cbn.
    destruct (isRelevantNotification (absPath w) l); cbn; [|done].
    by destruct (existsb (isRelevantNotification (absPath w)) ls).
Qed.

(** C3. While one push is in flight (the loop is in [pushing] and no
    completion is received), any steps that include at least one
    relevant notification leave the loop in [pushingAndGotEvent] with
    the state variable as the only thing that changed in the globals,
    no timer and the same one push in flight; no push is started
    meanwhile. When the completion is then received, exactly one push
    is started, however many notifications there were, the state is
    [pushing] again and one push is in flight. *)
Theorem mid_push_coalescing c g w ls w1 w2 :
  reachable c g w ->
  watcherState (globals w) = pushing ->
  forallb (fun l => negb (isCompletion l)) ls = true ->
  existsb (isRelevantNotification (absPath w)) ls = true ->
  run c ls w = Some w1 ->
  step c (Receive PushDone) w1 = Some w2 ->
  globals w1 = setState pushingAndGotEvent (globals w)
  ∧ timers w1 = []
  ∧ inFlight w1 = 1
  ∧ pushesStarted w1 = pushesStarted w
  ∧ watcherState (globals w2) = pushing
  ∧ pushesStarted w2 = S (pushesStarted w)
  ∧ timersArmed w2 = timersArmed w
  ∧ timers w2 = []
  ∧ inFlight w2 = 1.
Proof.
  intros Hreach Hst Hls Hex Hrun Hstep.
  pose proof (invariant_reachable _ _ _ Hreach) as Hinv.
  destruct (run_while_pushing _ _ _ _ Hinv (or_introl Hst) Hls Hrun)
    as (Hg1 & Hp1 & Ha1).
  rewrite Hex in Hg1.
  pose proof (invariant_run _ _ _ _ Hinv Hrun) as Hinv1.
  pose proof (invariant_step _ _ _ _ Hinv1 Hstep) as Hinv2.
  assert (watcherState (globals w1) = pushingAndGotEvent) as Hst1
    by by rewrite Hg1.
  assert (globals w2 = setState pushing (globals w1)
          ∧ pushesStarted w2 = S (pushesStarted w1)
          ∧ timersArmed w2 = timersArmed w1) as (Hg2 & Hp2 & Ha2).
  { revert Hstep. cbn [step].
    destruct (takeSender pushDone (goroutines w1)) as [gs|]; [|done].
    intros [= <-]. rewrite deliver_PushDone.
    cbn [globals record setGoroutines].
    rewrite decide_True by done. cbn [globals].
    split; [done|]. split; by count. }
  assert (watcherState (globals w2) = pushing) as Hst2 by by rewrite Hg2.
  pose proof (invariant_inFlight _ Hinv1) as Hf1.
  pose proof (invariant_inFlight _ Hinv2) as Hf2.
  rewrite Hst1 in Hf1. rewrite Hst2 in Hf2.
  unfold invariant in Hinv1, Hinv2. rewrite Hst1 in Hinv1.
  rewrite Hst2 in Hinv2.
  destruct Hinv1 as [Hts1 _]. destruct Hinv2 as [Hts2 _].
  repeat split; congruence.
Qed.

(** *** What each step of a reachable world can be *)

Lemma step_cases c l w w' :
  invariant w ->
  step c l w = Some w' ->
  match l with
  | Tick _ | Advance _ =>
    globals w' = globals w ∧ timers w' = timers w
    ∧ pushesStarted w' = pushesStarted w
    ∧ timersArmed w' = timersArmed w
  | Receive (FileWatch ei) =>
    pushesStarted w' = pushesStarted w
    ∧ if relevant (absPath w) ei
         && bool_decide (watcherState (globals w) = waiting)
      then watcherState (globals w') = initialDelay
           ∧ timersArmed w' = S (timersArmed w)
           ∧ timers w = []
      else timersArmed w' = timersArmed w ∧ timers w' = timers w
           ∧ (watcherState (globals w) = initialDelay ->
              watcherState (globals w') = initialDelay)
  | Receive InitialDelayDone =>
    watcherState (globals w) = initialDelay
    ∧ watcherState (globals w') = pushing
    ∧ pushesStarted w' = S (pushesStarted w)
    ∧ timersArmed w' = timersArmed w
    ∧ goroutines w = []
  | Receive PushDone =>
    timersArmed w' = timersArmed w ∧ timers w' = timers w
    ∧ takeSender pushDone (goroutines w) = Some []
    ∧ (watcherState (globals w) = pushingAndGotEvent
       ∧ watcherState (globals w') = pushing
       ∧ pushesStarted w' = S (pushesStarted w)
       ∨ watcherState (globals w) = pushing
         ∧ watcherState (globals w') = waiting
         ∧ pushesStarted w' = pushesStarted w)
  end.
Proof.
  intros Hinv. pose proof Hinv as Hinv'. unfold invariant in Hinv.
  destruct l as [d|[ei| |]|k]; cbn [step].
  - by intros [= <-].
  - intros [= <-]. destruct (relevant (absPath w) ei) eqn:Hrel.
    + rewrite deliver_relevant by done.
      destruct (watcherState (globals w)) eqn:Hst; cbn [andb];
        [rewrite bool_decide_eq_true_2 by done
        |rewrite bool_decide_eq_false_2 by done..];
        cbn [globals timers watcherState setState];
        (split; [by count|]).
      * destruct Hinv as [-> _]. split; [done|]. split; [by count|done].
      * split; [by count|done].
      * split; [by count|done].
      * split; [by count|done].
    + rewrite deliver_discarded by done. cbn [andb globals timers].
      destruct (filepath_Rel _ _).
      { split; [by count|]. split; [by count|done]. }
      destruct (Verbose (args c)).
      { split; [by count|]. split; [by count|done]. }
      rewrite app_nil_r. split; [by count|]. split; [by count|done].
  - destruct (watcherState (globals w)) eqn:Hst.
    2: { destruct Hinv as [[due Hdue] Hgs]. rewrite Hdue, takeTimer_single.
         destruct (due <=? now w)%N; [|done]. intros [= <-].
         rewrite deliver_InitialDelayDone.
         cbn [globals watcherState setState].
         split; [done|]. split; [done|]. split; [by count|].
         split; [by count|done]. }
    all: destruct Hinv as [Hts _]; by rewrite Hts.
  - destruct (watcherState (globals w)) eqn:Hst.
    1,2: destruct Hinv as [_ Hgs]; by rewrite Hgs.
    all: destruct Hinv as [Hts (r & Hgs & Hr)]; rewrite Hgs;
      destruct (takeSender_pushGoroutine _ Hr) as [[_ ->]|[_ ->]];
      [|done]; intros [= <-];
      rewrite deliver_PushDone; cbn [globals record setGoroutines];
      rewrite Hst; case_decide; try congruence;
      cbn [globals timers watcherState setState];
      (split; [by count|]); (split; [done|]); (split; [done|]).
    + right. split; [done|]. split; [done|]. by count.
    + left. split; [done|]. split; [done|]. by count.
  - destruct (goroutines w !! k) as [[|e rest]|] eqn:Hk; try done.
    destruct (isSend e) eqn:He; [done|]. intros [= <-].
    destruct (watcherState (globals w)) eqn:Hst.
    1,2: destruct Hinv as [_ Hgs]; by rewrite Hgs in Hk.
    all: destruct Hinv as [Hts (r & Hgs & Hr)]; rewrite Hgs in Hk |- *;
      (destruct k as [|k]; [|done]); cbn in Hk; injection Hk as ->;
      destruct Hr as [[call Hr]|[Hr|Hr]]; injection Hr as -> ->;
      try discriminate He; cbn [perform globals timers record setGoroutines];
      (split; [done|]); (split; [done|]); split; by count.
Qed.

Lemma start_world c g w0 :
  Action c g = Watching w0 ->
  w0 = {| globals := g; absPath := absPath w0; now := 0; timers := [];
          goroutines := []; trace := startup c g (absPath w0) |}.
Proof.
  unfold Action. destruct (filepath_Abs _); [done|].
  destruct (notify_Watch _); [done|]. by intros [= <-].
Qed.

(** C5. In every reachable world at most one push is in flight. The
    world in which the loop starts has none: the push of the startup
    has already been performed. A step of the loop starts at most one
    push, and only when it receives the expiry (in [initialDelay], with
    no push in flight) or a completion (in [pushingAndGotEvent], from
    the one goroutine in flight, which ends there); after such a step
    again one push is in flight. *)
Theorem at_most_one_push_in_flight c g w :
  reachable c g w ->
  inFlight w <= 1
  ∧ (∀ w0, Action c g = Watching w0 ->
       inFlight w0 = 0 ∧ pushesStarted w0 = 0
       ∧ filter (fun e => isPush e = true) (trace w0) =
         [push {| push_config := config c; push_appPath := appPath g;
                  push_third := false; push_wait := 180;
                  push_timeout := timeout g;
                  push_localFrontend := localFrontend c;
                  push_args := args c; push_logger := logger c |}])
  ∧ ∀ l w', step c l w = Some w' ->
      inFlight w' <= 1
      ∧ (pushesStarted w' = pushesStarted w
         ∨ pushesStarted w' = S (pushesStarted w)
           ∧ inFlight w' = 1
           ∧ (l = Receive InitialDelayDone
              ∧ watcherState (globals w) = initialDelay
              ∧ inFlight w = 0
              ∨ l = Receive PushDone
                ∧ watcherState (globals w) = pushingAndGotEvent
                ∧ inFlight w = 1
                ∧ takeSender pushDone (goroutines w) = Some [])).
Proof.
  intros Hreach. pose proof (invariant_reachable _ _ _ Hreach) as Hinv.
  pose proof (invariant_inFlight _ Hinv) as Hf.
  split; [rewrite Hf; destruct (watcherState (globals w)); lia|].
  split.
  - intros w0 Hw0. rewrite (start_world _ _ _ Hw0). done.
  - intros l w' Hstep.
    pose proof (invariant_step _ _ _ _ Hinv Hstep) as Hinv'.
    pose proof (invariant_inFlight _ Hinv') as Hf'.
    split; [rewrite Hf'; destruct (watcherState (globals w')); lia|].
    pose proof (step_cases _ _ _ _ Hinv Hstep) as Hc.
    destruct l as [d|[ei| |]|k].
    + left. tauto.
    + left. tauto.
    + destruct Hc as (Hst & Hst' & Hp & _ & _). right.
      rewrite Hst in Hf. rewrite Hst' in Hf'. tauto.
    + destruct Hc as (_ & _ & Hgs & [(Hst & Hst' & Hp)|(_ & _ & Hp)]);
        [right|by left].
      rewrite Hst in Hf. rewrite Hst' in Hf'. tauto.
    + left. tauto.
Qed.

(** C6. In every reachable world the expiry can be received only in
    [initialDelay]; a timer is pending only in that state, and then
    exactly one. A step arms a timer only when it takes the loop from
    [waiting] to [initialDelay], with no timer pending before. And in
    [initialDelay] every step other than the receipt of the expiry
    leaves the state and the pending timer as they are. *)
Theorem expiry_only_in_initialDelay c g w :
  reachable c g w ->
  (∀ w', step c (Receive InitialDelayDone) w = Some w' ->
         watcherState (globals w) = initialDelay)
  ∧ (timers w ≠ [] ->
     watcherState (globals w) = initialDelay
     ∧ ∃ due, timers w = [(due, initialDelayDone)])
  ∧ ∀ l w', step c l w = Some w' ->
      (timersArmed w' = timersArmed w
       ∨ timersArmed w' = S (timersArmed w)
         ∧ (∃ ei, l = Receive (FileWatch ei))
         ∧ watcherState (globals w) = waiting
         ∧ watcherState (globals w') = initialDelay
         ∧ timers w = [])
      ∧ (watcherState (globals w) = initialDelay ->
         l ≠ Receive InitialDelayDone ->
         watcherState (globals w') = initialDelay
         ∧ timers w' = timers w).
Proof.
  intros Hreach. pose proof (invariant_reachable _ _ _ Hreach) as Hinv.
  split; [|split].
  - intros w' Hstep. by destruct (step_cases _ _ _ _ Hinv Hstep).
  - unfold invariant in Hinv.
    destruct (watcherState (globals w)); destruct Hinv as [Hts _];
      try by rewrite Hts.
    done.
  - intros l w' Hstep.
    pose proof (step_cases _ _ _ _ Hinv Hstep) as Hc.
    destruct l as [d|[ei| |]|k].
    + destruct Hc as (Hg & Hts & _ & Ha). split; [by left|].
      intros Hst _. by rewrite Hg.
    + destruct Hc as [_ Hc].
      destruct (relevant (absPath w) ei); cbn [andb] in Hc.
      * case_bool_decide as Hst.
        -- destruct Hc as (Hst' & Ha & Hts). split.
           ++ right. split; [done|]. split; [by eexists|done].
           ++ intros Hst2. congruence.
        -- destruct Hc as (Ha & Hts & Hkeep). split; [by left|].
           intros Hst2 _. auto.
      * destruct Hc as (Ha & Hts & Hkeep). split; [by left|].
        intros Hst2 _. auto.
    + split; [left; tauto|]. intros _ Hne. by destruct Hne.
    + destruct Hc as (Ha & Hts & _ & [(Hst & _)|(Hst & _)]);
        (split; [by left|]); intros Hst2; congruence.
    + destruct Hc as (Hg & Hts & _ & Ha). split; [by left|].
      intros Hst _. by rewrite Hg.
Qed.

(** *** [doPush] and the startup *)

Lemma doPush_globals p nb nb' t st st' cfg a ob lf (d : option Chan) lg :
  doPush {| appPath := p; noBrowser := nb; timeout := t;
            watcherState := st |} cfg a ob lf d lg =
  doPush {| appPath := p; noBrowser := nb'; timeout := t;
            watcherState := st' |} cfg a ob lf d lg.
Proof. reflexivity. Qed.

(** C8, as the code has it. [doPush] sends a reload right after [push]
    returns, whatever [push] did and before it signals completion, when
    it is called with [openBrowser = false], and sends none when called
    with [openBrowser = true]. Every push the loop starts is of the
    first kind. The push of the startup is of the second kind, but the
    startup itself sends a reload right after it. *)
Theorem reload_after_every_push c g absPath cfg a lf lg
    (d : option Chan) :
  doPush g cfg a false lf d lg =
    [push {| push_config := cfg; push_appPath := appPath g;
             push_third := true; push_wait := 180;
             push_timeout := timeout g; push_localFrontend := lf;
             push_args := a; push_logger := lg |};
     livereload_SendReload]
    ++ match d with Some ch => [Send ch] | None => [] end
  ∧ reloadAfterPush (doPush g cfg a false lf d lg) = [true]
  ∧ reloadAfterPush (doPush g cfg a true lf d lg) = [false]
  ∧ (∀ i g0 e, e ∈ (selectCase c absPath i g0).2 -> isGo e = true ->
       e = go_doPush false (Some pushDone))
  ∧ reloadAfterPush (startup c g absPath) = [true].
Proof.
  split; [done|]. split; [by destruct d|]. split; [by destruct d|].
  split; [|done].
  assert (∀ (e : Effect) es,
             Forall (fun e' => isGo e' = true ->
                               e' = go_doPush false (Some pushDone)) es ->
             e ∈ es -> isGo e = true ->
             e = go_doPush false (Some pushDone)) as Hall.
  { intros e es Hes Hin. by apply (proj1 (Forall_forall _ _) Hes). }
  intros i g0 e. apply Hall. destruct i as [ei| |]; cbn [selectCase].
  - unfold onFileWatch.
    destruct (filepath_Rel _ _); [|destruct (IgnoreFilePath _)];
      repeat case_decide; destruct (Verbose (args c)); cbn;
      repeat constructor; discriminate.
  - cbn. repeat constructor; discriminate.
  - unfold onPushDone. case_decide; cbn; repeat constructor; discriminate.
Qed.

End WithHost.

(** *** On the sample host *)

Import Sample.

Lemma start_is_started : Action captured flags = Watching start.
Proof. reflexivity. Qed.

Lemma after_reachable (ls : list Label) (w : World) :
  run captured ls start = Some w -> reachable captured flags w.
Proof.
  intros Hrun. split; [reflexivity|]. exists start, ls.
  split; [exact start_is_started|exact Hrun].
Defined.

Example pushingWorld_state :
  watcherState (globals pushingWorld) = pushing
  ∧ inFlight pushingWorld = 1 ∧ now pushingWorld = 100%N.
Proof. vm_compute. done. Qed.

Example flaggedWorld_state :
  watcherState (globals flaggedWorld) = pushingAndGotEvent
  ∧ goroutines flaggedWorld = [[Send pushDone]].
Proof. vm_compute. done. Qed.

Example restartedWorld_state :
  watcherState (globals restartedWorld) = pushing
  ∧ pushesStarted restartedWorld = 2 ∧ timersArmed restartedWorld = 1.
Proof. vm_compute. done. Qed.

(** C7, at [watch --noBrowser]. The startup calls [push] once, with
    [false] as its third argument, which is [!openBrowser] for the
    constant [openBrowser = true]; the effects of the startup are the
    same as without the flag, and so is every [doPush]: the variable
    [noBrowser] is not read. *)
Theorem noBrowser_flag_not_read :
  noBrowser flags = true
  ∧ filter (fun e => isPush e = true)
           (startup captured flags "/home/dev/app") =
    [push {| push_config := tt; push_appPath := "app";
             push_third := false; push_wait := 180; push_timeout := 10;
             push_localFrontend := false; push_args := false;
             push_logger := tt |}]
  ∧ startup captured (parsed "app" true 10) "/home/dev/app" =
    startup captured (parsed "app" false 10) "/home/dev/app"
  ∧ ∀ openBrowser (d : option Chan),
      doPush (parsed "app" true 10) tt false openBrowser false d tt =
      doPush (parsed "app" false 10) tt false openBrowser false d tt.
Proof. repeat split. Qed.

(** C8 as stated fails at the startup: the one push of the startup is
    followed by a reload notification. *)
Lemma startup_push_is_followed_by_reload :
  reloadAfterPush (startup captured flags "/home/dev/app") = [true]
  ∧ ¬ Forall (fun b => b = false)
             (reloadAfterPush (startup captured flags "/home/dev/app")).
Proof.
  split; [reflexivity|]. intros Hall. cbn in Hall.
  by apply Forall_cons in Hall as [? _].
Qed.

(** *** The theorems above at the sample worlds *)


Lemma push_completed_witness :
  step captured (Receive PushDone) flaggedWorld = Some restartedWorld
  ∧ watcherState (globals restartedWorld) = pushing
  ∧ pushesStarted restartedWorld = S (pushesStarted flaggedWorld).
Proof.
  assert (step captured (Receive PushDone) flaggedWorld
          = Some restartedWorld) as Hstep by (vm_compute; reflexivity).
  split; [exact Hstep|].
  destruct (push_completed (H := host) captured flaggedWorld restartedWorld Hstep)
    as ((gs & _ & Hcase) & _).
  vm_compute decide in Hcase. destruct Hcase as (Hg & _ & Hp).
  split; [by rewrite Hg|exact Hp].
Defined.

Lemma mid_push_coalescing_witness :
  reachable captured flags pushingWorld
  ∧ run captured duringPush pushingWorld = Some flaggedWorld
  ∧ pushesStarted flaggedWorld = pushesStarted pushingWorld
  ∧ pushesStarted restartedWorld = S (pushesStarted pushingWorld).
Proof.
  assert (reachable captured flags pushingWorld) as Hreach
    by (apply (after_reachable toPushing); vm_compute; reflexivity).
  assert (run captured duringPush pushingWorld = Some flaggedWorld) as Hrun
    by (vm_compute; reflexivity).
  assert (step captured (Receive PushDone) flaggedWorld
          = Some restartedWorld) as Hstep by (vm_compute; reflexivity).
  split; [exact Hreach|]. split; [exact Hrun|].
  destruct (mid_push_coalescing (H := host) captured flags pushingWorld duringPush
              flaggedWorld restartedWorld Hreach eq_refl eq_refl eq_refl
              Hrun Hstep)
    as (_ & _ & _ & Hp1 & _ & Hp2 & _).
  split; [exact Hp1|exact Hp2].
Defined.

Lemma debounce_absorption_witness :
  reachable captured flags start
  ∧ (elapsed saves < 100)%N
  ∧ ∃ w2, run captured (Receive (FileWatch (changed "/main.js")) :: burst saves) start
          = Some w2
        ∧ timers w2 = [(100%N, initialDelayDone)]
        ∧ pushesStarted w2 = 0.
Proof.
  assert (reachable captured flags start) as Hreach
    by (apply (after_reachable []); reflexivity).
  split; [exact Hreach|]. split; [reflexivity|].
  destruct (debounce_absorption (H := host) captured flags start (changed "/main.js") saves
              Hreach eq_refl eq_refl eq_refl)
    as (w2 & Hrun & _ & _ & Hts & _ & Hp & _).
  exists w2. split; [exact Hrun|]. split; [exact Hts|exact Hp].
Defined.

Lemma at_most_one_push_in_flight_witness :
  reachable captured flags restartedWorld ∧ inFlight restartedWorld <= 1.
Proof.
  assert (reachable captured flags restartedWorld) as Hreach
    by (apply (after_reachable
                 (toPushing ++ duringPush ++ [Receive PushDone]));
        vm_compute; reflexivity).
  split; [exact Hreach|].
  exact (proj1 (at_most_one_push_in_flight (H := host) captured flags restartedWorld
                  Hreach)).
Defined.

Lemma expiry_only_in_initialDelay_witness :
  reachable captured flags (after [Receive (FileWatch (changed "/main.js")); Tick 100])
  ∧ ∀ w',
      step captured (Receive InitialDelayDone)
           (after [Receive (FileWatch (changed "/main.js")); Tick 100]) = Some w' ->
      watcherState
        (globals (after [Receive (FileWatch (changed "/main.js")); Tick 100]))
      = initialDelay.
Proof.
  assert (reachable captured flags
            (after [Receive (FileWatch (changed "/main.js")); Tick 100])) as Hreach
    by (apply (after_reachable [Receive (FileWatch (changed "/main.js")); Tick 100]);
        vm_compute; reflexivity).
  split; [exact Hreach|].
  exact (proj1 (expiry_only_in_initialDelay (H := host) captured flags _ Hreach)).
Defined.

Lemma discarded_notification_witness :
  filepath_Rel (absPath start) (Path (changed "/.git/index")) = inr ".git/index"
  ∧ IgnoreFilePath ".git/index" = true
  ∧ globals (deliver captured (FileWatch (changed "/.git/index")) start)
    = globals start
  ∧ timers (deliver captured (FileWatch (changed "/.git/index")) start) = [].
Proof.
  split; [reflexivity|]. split; [reflexivity|].
  destruct (discarded_notification (H := host) captured (changed "/.git/index") start)
    as (Hg & Hts & _).
  { right. exists ".git/index". split; reflexivity. }
  split; [exact Hg|exact Hts].
Defined.

(** A path that cannot be made relative is discarded with its error
    line. *)
Example unrelatable_notification :
  deliver captured (FileWatch (changed "elsewhere.txt")) start =
  record (log_Printf ("Error obtaining relative file path to %s" +:+ newline)
                     [Str "elsewhere.txt"]) start.
Proof. vm_compute. reflexivity. Qed.

End appixFacts.

(** ** More on the [watch] loop: what it never does, what it always
    reaches, and what its counts add up to *)
Module appixMore.

Import appix appixFacts.

Section WithHost.

Context `{Host}.

Implicit Types (c : Captured) (g : Globals) (w : World) (ei : EventInfo).

Ltac tally :=
  unfold performed, pushesStarted, timersArmed;
  cbn [trace record setGoroutines setTimers setGlobals setNow];
  repeat first
    [ rewrite filter_snoc_true by done
    | rewrite filter_snoc_false by done
    | rewrite pushesStarted_details
    | rewrite timersArmed_details
    | rewrite app_nil_r ];
  try reflexivity.

Ltac crunch :=
  rewrite ?filter_app, ?length_app; cbn;
  repeat first [rewrite decide_True by done | rewrite decide_False by done];
  cbn [length]; try lia.

Ltac fields :=
  cbn [globals goroutines trace timers now absPath watcherState
       record setTimers setGoroutines setNow setGlobals setState perform].

(** *** Nothing happens without a change *)

Lemma step_idle c l w w' :
  invariant w ->
  watcherState (globals w) = waiting ->
  isRelevantNotification (absPath w) l = false ->
  step c l w = Some w' ->
  globals w' = globals w ∧ timers w' = [] ∧ goroutines w' = []
  ∧ pushesStarted w' = pushesStarted w
  ∧ timersArmed w' = timersArmed w.
Proof.
  intros Hinv Hst Hl. unfold invariant in Hinv. rewrite Hst in Hinv.
  destruct Hinv as [Hts Hgs].
  destruct l as [d|[ei| |]|k]; cbn [step isRelevantNotification] in *.
  - by intros [= <-].
  - intros [= <-]. rewrite deliver_discarded by done.
    cbn [globals timers goroutines]. repeat (split; [done|]).
    destruct (filepath_Rel _ _); [split; by tally|].
    destruct (Verbose (args c)); split; by tally.
  - by rewrite Hts.
  - by rewrite Hgs.
  - by rewrite Hgs.
Qed.

(** X1. From a reachable [waiting] world, whatever steps happen, as long
    as no relevant notification is among them (time passing, discarded
    notifications), the loop stays idle: the globals are untouched, no
    timer is armed, no push is started and nothing is in flight. The
    expiry, a completion and a goroutine step cannot happen at all. *)
Theorem idle_without_change c g ls w w' :
  reachable c g w ->
  watcherState (globals w) = waiting ->
  existsb (isRelevantNotification (absPath w)) ls = false ->
  run c ls w = Some w' ->
  globals w' = globals w ∧ timers w' = [] ∧ inFlight w' = 0
  ∧ pushesStarted w' = pushesStarted w
  ∧ timersArmed w' = timersArmed w
  ∧ Forall (fun l => match l with
                     | Tick _ | Receive (FileWatch _) => True
                     | _ => False
                     end) ls.
Proof.
  intros Hreach. pose proof (invariant_reachable _ _ _ Hreach) as Hinv.
  clear Hreach. revert w Hinv.
  induction ls as [|l ls IH]; intros w Hinv Hst; cbn [existsb run].
  - intros _ [= <-]. unfold invariant in Hinv. rewrite Hst in Hinv.
    destruct Hinv as [Hts Hgs]. unfold inFlight. rewrite Hgs.
    by repeat split.
  - intros [Hl Hls]%orb_false_elim.
    destruct (step c l w) as [w1|] eqn:Hstep; [|done]. intros Hrun.
    destruct (step_idle _ _ _ _ Hinv Hst Hl Hstep)
      as (Hg1 & Hts1 & Hgs1 & Hp1 & Ha1).
    destruct (step_frame _ _ _ _ Hstep) as [_ Hpath].
    destruct (IH w1) as (Hg2 & Hts2 & Hf2 & Hp2 & Ha2 & Hall);
      [by eapply invariant_step|by rewrite Hg1|by rewrite Hpath|done|].
    repeat (split; [congruence|]). constructor; [|done].
    unfold invariant in Hinv. rewrite Hst in Hinv. destruct Hinv as [Hts Hgs].
    destruct l as [d|[ei| |]|k]; cbn [step] in Hstep; try done.
    + by rewrite Hts in Hstep.
    + by rewrite Hgs in Hstep.
    + by rewrite Hgs in Hstep.
Qed.

(** X2. A push during which no relevant notification arrives ends in
    [waiting]: from a reachable [pushing] world, after any steps without a
    relevant notification, the completion brings the loop back to idle,
    with no new push, nothing in flight and no timer. *)
Theorem quiet_push_returns_to_idle c g ls w w1 w2 :
  reachable c g w ->
  watcherState (globals w) = pushing ->
  forallb (fun l => negb (isCompletion l)) ls = true ->
  existsb (isRelevantNotification (absPath w)) ls = false ->
  run c ls w = Some w1 ->
  step c (Receive PushDone) w1 = Some w2 ->
  globals w1 = globals w
  ∧ globals w2 = setState waiting (globals w)
  ∧ pushesStarted w2 = pushesStarted w
  ∧ timersArmed w2 = timersArmed w
  ∧ inFlight w2 = 0
  ∧ timers w2 = [].
Proof.
  intros Hreach Hst Hls Hex Hrun Hstep.
  pose proof (invariant_reachable _ _ _ Hreach) as Hinv.
  destruct (run_while_pushing _ _ _ _ Hinv (or_introl Hst) Hls Hrun)
    as (Hg1 & Hp1 & Ha1).
  rewrite Hex, setState_same in Hg1.
  pose proof (invariant_run _ _ _ _ Hinv Hrun) as Hinv1.
  pose proof (invariant_step _ _ _ _ Hinv1 Hstep) as Hinv2.
  assert (globals w2 = setState waiting (globals w1)
          ∧ pushesStarted w2 = pushesStarted w1
          ∧ timersArmed w2 = timersArmed w1) as (Hg2 & Hp2 & Ha2).
  { revert Hstep. cbn [step].
    destruct (takeSender pushDone (goroutines w1)) as [gs|]; [|done].
    intros [= <-]. rewrite deliver_PushDone.
    cbn [globals record setGoroutines].
    rewrite decide_False by congruence. cbn [globals].
    split; [done|]. split; by tally. }
  pose proof (invariant_inFlight _ Hinv2) as Hf2.
  unfold invariant in Hinv2. rewrite Hg2 in Hf2, Hinv2. cbn in Hf2, Hinv2.
  destruct Hinv2 as [Hts2 _].
  split; [done|]. split; [congruence|]. split; [congruence|].
  split; [congruence|]. done.
Qed.

(** *** A change is not lost *)

Lemma step_pushesStarted c l w w' :
  invariant w -> step c l w = Some w' ->
  pushesStarted w' = pushesStarted w
  ∨ pushesStarted w' = S (pushesStarted w).
Proof.
  intros Hinv Hstep. pose proof (step_cases _ _ _ _ Hinv Hstep) as Hc.
  destruct l as [d|[ei| |]|k]; [tauto|tauto|tauto| |tauto].
  destruct Hc as (_ & _ & _ & [(_ & _ & Hp)|(_ & _ & Hp)]); tauto.
Qed.

Lemma run_pushesStarted c ls w w' :
  invariant w -> run c ls w = Some w' -> pushesStarted w <= pushesStarted w'.
Proof.
  revert w. induction ls as [|l ls IH]; intros w Hinv; cbn.
  - by intros [= <-].
  - destruct (step c l w) as [w1|] eqn:Hstep; [|done]. intros Hrun.
    pose proof (IH w1 (invariant_step _ _ _ _ Hinv Hstep) Hrun).
    destruct (step_pushesStarted _ _ _ _ Hinv Hstep); lia.
Qed.

Lemma step_pending c l w w' :
  invariant w ->
  watcherState (globals w) = initialDelay
  ∨ watcherState (globals w) = pushingAndGotEvent ->
  step c l w = Some w' ->
  watcherState (globals w') = watcherState (globals w)
  ∧ pushesStarted w' = pushesStarted w
  ∨ pushesStarted w' = S (pushesStarted w).
Proof.
  intros Hinv Hst Hstep. pose proof (step_cases _ _ _ _ Hinv Hstep) as Hc.
  destruct l as [d|[ei| |]|k].
  - left. destruct Hc as (-> & _ & -> & _). done.
  - left. split; [|tauto]. clear Hc. cbn [step] in Hstep.
    injection Hstep as <-. destruct (relevant (absPath w) ei) eqn:Hrel.
    + rewrite deliver_relevant by done.
      by destruct Hst as [Hst|Hst]; rewrite Hst.
    + by rewrite deliver_discarded.
  - right. tauto.
  - destruct Hc as (_ & _ & _ & [(_ & _ & Hp)|(Hst' & _)]); [by right|].
    destruct Hst; congruence.
  - left. destruct Hc as (-> & _ & -> & _). done.
Qed.

Lemma run_pending c ls w w' :
  invariant w ->
  watcherState (globals w) = initialDelay
  ∨ watcherState (globals w) = pushingAndGotEvent ->
  run c ls w = Some w' ->
  pushesStarted w' = pushesStarted w ->
  watcherState (globals w') = watcherState (globals w).
Proof.
  revert w. induction ls as [|l ls IH]; intros w Hinv Hst; cbn.
  - by intros [= <-].
  - destruct (step c l w) as [w1|] eqn:Hstep; [|done]. intros Hrun Hp.
    pose proof (invariant_step _ _ _ _ Hinv Hstep) as Hinv1.
    pose proof (run_pushesStarted _ _ _ _ Hinv1 Hrun) as Hle.
    destruct (step_pending _ _ _ _ Hinv Hst Hstep) as [[Hst1 Hp1]|Hp1];
      [|lia].
    rewrite <- Hst1. apply IH; [done|by rewrite Hst1|done|congruence].
Qed.

(** X3. Once the loop has taken a relevant notification, it does not come
    back to [waiting] (nor to plain [pushing]) before it has started a
    push: in every later world in which no push has been started since,
    the loop is in [initialDelay] with its timer pending, or in
    [pushingAndGotEvent] with the push in flight. *)
Theorem change_not_lost c g ei ls w w' :
  reachable c g w ->
  relevant (absPath w) ei = true ->
  run c (Receive (FileWatch ei) :: ls) w = Some w' ->
  pushesStarted w' = pushesStarted w ->
  watcherState (globals w') = initialDelay
  ∧ (∃ due, timers w' = [(due, initialDelayDone)])
  ∨ watcherState (globals w') = pushingAndGotEvent ∧ inFlight w' = 1.
Proof.
  intros Hreach Hrel Hrun Hp.
  pose proof (invariant_reachable _ _ _ Hreach) as Hinv.
  cbn [run step] in Hrun. set (w1 := deliver c (FileWatch ei) w) in *.
  assert (step c (Receive (FileWatch ei)) w = Some w1) as Hstep by done.
  pose proof (invariant_step _ _ _ _ Hinv Hstep) as Hinv1.
  assert ((watcherState (globals w1) = initialDelay
           ∨ watcherState (globals w1) = pushingAndGotEvent)
          ∧ pushesStarted w1 = pushesStarted w) as [Hst1 Hp1].
  { subst w1. rewrite deliver_relevant by done.
    destruct (watcherState (globals w)) eqn:Hst; cbn [globals watcherState setState];
      rewrite ?Hst; (split; [tauto|by tally]). }
  pose proof (run_pending _ _ _ _ Hinv1 Hst1 Hrun) as Hkeep.
  rewrite Hp1 in Hkeep. specialize (Hkeep Hp).
  pose proof (invariant_run _ _ _ _ Hinv1 Hrun) as Hinv'.
  pose proof (invariant_inFlight _ Hinv') as Hf'.
  unfold invariant in Hinv'.
  destruct Hst1 as [Hst1|Hst1]; rewrite Hst1 in Hkeep;
    rewrite Hkeep in Hinv', Hf'; [left|right]; (split; [done|]).
  - by destruct Hinv'.
  - done.
Qed.

Lemma next_push c w :
  invariant w ->
  watcherState (globals w) = initialDelay
  ∨ watcherState (globals w) = pushingAndGotEvent ->
  ∃ w', run c (untilNextPush w) w = Some w'
        ∧ pushesStarted w' = S (pushesStarted w)
        ∧ watcherState (globals w') = pushing
        ∧ inFlight w' = 1.
Proof.
  intros Hinv Hst. unfold invariant in Hinv. unfold untilNextPush.
  destruct Hst as [Hst|Hst]; rewrite Hst in Hinv |- *.
  - destruct Hinv as [[due Hts] Hgs]. rewrite Hts.
    rewrite (expiry_in_initialDelay _ _ _ _ Hst Hts Hgs).
    destruct (_ <=? _)%N eqn:Hle; [|apply N.leb_gt in Hle; lia].
    eexists. split; [done|]. rewrite deliver_InitialDelayDone.
    cbn [globals goroutines watcherState setState record setTimers setNow
         inFlight].
    rewrite Hgs. split; [by tally|done].
  - destruct Hinv as [Hts (r & Hgs & Hr)]. rewrite Hgs.
    destruct w as [[ap nb tm st] p t ts gs tr]. cbn in Hst, Hts, Hgs.
    subst st ts gs.
    destruct Hr as [[call ->]|[->| ->]]; cbn; eexists; (split; [done|]);
      rewrite deliver_PushDone; unfold pushesStarted, inFlight; cbn;
      rewrite decide_True by done; cbn; (split; [crunch|done]).
Qed.

(** X4. A relevant notification can always be followed by a push: from
    any reachable world, after the loop has taken the notification, the
    steps of [untilNextPush] (the rest of the debounce delay and the
    expiry, or the rest of the running push and its completion) can all
    happen and end with a new push started, the loop in [pushing] and one
    push in flight. *)
Theorem change_leads_to_push c g ei w :
  reachable c g w ->
  relevant (absPath w) ei = true ->
  ∃ w',
    run c (Receive (FileWatch ei)
           :: untilNextPush (deliver c (FileWatch ei) w)) w = Some w'
    ∧ pushesStarted w' = S (pushesStarted w)
    ∧ watcherState (globals w') = pushing
    ∧ inFlight w' = 1.
Proof.
  intros Hreach Hrel.
  pose proof (invariant_reachable _ _ _ Hreach) as Hinv.
  cbn [run step]. set (w1 := deliver c (FileWatch ei) w).
  assert (step c (Receive (FileWatch ei)) w = Some w1) as Hstep by done.
  pose proof (invariant_step _ _ _ _ Hinv Hstep) as Hinv1.
  assert ((watcherState (globals w1) = initialDelay
           ∨ watcherState (globals w1) = pushingAndGotEvent)
          ∧ pushesStarted w1 = pushesStarted w) as [Hst1 Hp1].
  { subst w1. rewrite deliver_relevant by done.
    destruct (watcherState (globals w)) eqn:Hst; cbn [globals watcherState setState];
      rewrite ?Hst; (split; [tauto|by tally]). }
  destruct (next_push c w1 Hinv1 Hst1) as (w' & Hrun & Hp & Hst' & Hf).
  exists w'. rewrite <- Hp1. done.
Qed.

(** *** The counts add up *)

Lemma ledger_start c g w0 : Action c g = Watching w0 -> ledger w0.
Proof.
  intros Hw0. rewrite (start_world _ _ _ Hw0).
  unfold ledger, performed, pending, pushesStarted, timersArmed, inFlight.
  cbn. repeat first [rewrite decide_True by done | rewrite decide_False by done].
  done.
Qed.

Lemma ledger_step c l w w' :
  invariant w -> ledger w -> step c l w = Some w' -> ledger w'.
Proof.
  intros Hinv Hled. unfold invariant in Hinv.
  destruct w as [[ap nb tm st] p t ts gs tr]. cbn in Hinv.
  unfold ledger, performed, pending, pushesStarted, timersArmed, inFlight
    in *.
  cbn in Hled. destruct Hled as (H1 & H2 & H3 & H4).
  destruct l as [d|[ei| |]|k]; cbn [step].
  - intros [= <-]. cbn. done.
  - intros [= <-].
    destruct (relevant p ei) eqn:Hrel.
    + rewrite deliver_relevant by done. unfold details.
      destruct st, (Verbose (args c)); cbn; crunch.
    + rewrite deliver_discarded by done. unfold details. cbn.
      destruct (filepath_Rel p (Path ei)), (Verbose (args c)); cbn; crunch.
  - destruct st; cbn [timers].
    2: { destruct Hinv as [[due ->] ->]. rewrite takeTimer_single.
         destruct (due <=? _)%N; [|done]. intros [= <-].
         rewrite deliver_InitialDelayDone. cbn in *. crunch. }
    all: destruct Hinv as [-> _]; done.
  - destruct st; cbn [goroutines].
    1,2: destruct Hinv as [_ ->]; done.
    all: destruct Hinv as [-> (r & -> & Hr)];
      destruct (takeSender_pushGoroutine _ Hr) as [[-> ->]|[_ ->]];
      [|done]; intros [= <-]; rewrite deliver_PushDone; cbn in *;
      first [rewrite decide_False by done|rewrite decide_True by done];
      cbn; revert H1 H2 H3 H4; crunch.
  - cbn [goroutines].
    destruct (gs !! k) as [[|e rest]|] eqn:Hk; try done.
    destruct (isSend e) eqn:He; [done|]. intros [= <-].
    destruct st.
    1,2: destruct Hinv as [_ ->]; done.
    all: destruct Hinv as [-> (r & -> & Hr)];
      (destruct k as [|k]; [|done]); cbn in Hk; injection Hk as ->;
      destruct Hr as [[call Hr]|[Hr|Hr]]; injection Hr as -> ->;
      try discriminate He; cbn in *; revert H1 H2 H3 H4; crunch.
Qed.

Lemma ledger_reachable c g w : reachable c g w -> ledger w.
Proof.
  intros (Hg & w0 & ls & Hstart & Hrun).
  pose proof (invariant_start _ _ _ Hg Hstart) as Hinv.
  pose proof (ledger_start _ _ _ Hstart) as Hled.
  clear Hstart. revert w0 Hinv Hled Hrun.
  induction ls as [|l ls IH]; intros w0 Hinv Hled; cbn.
  - by intros [= <-].
  - destruct (step c l w0) as [w1|] eqn:Hstep; [|done].
    apply IH; [by eapply invariant_step|by eapply ledger_step].
Qed.

(** X5. In every reachable world the pushes the loop has started are
    exactly the completions it has received plus the pushes in flight, and
    the timers it has armed are exactly the expiries it has received plus
    the timers pending: no completion or expiry arrives that was not
    caused, and none is received twice. *)
Theorem starts_are_completions_plus_in_flight c g w :
  reachable c g w ->
  pushesStarted w = performed (isSendOn pushDone) w + inFlight w
  ∧ timersArmed w
    = performed (isSendOn initialDelayDone) w + length (timers w)
  ∧ performed (isSendOn pushDone) w <= pushesStarted w
  ∧ performed (isSendOn initialDelayDone) w <= timersArmed w.
Proof.
  intros Hreach. destruct (ledger_reachable _ _ _ Hreach) as (H1 & H2 & _).
  repeat split; [done|done|lia|lia].
Qed.

(** X6. In every reachable world, and so at every moment of a session,
    each completion received so far was preceded by the reload
    notification of its push, and each reload notification by a call of
    [push]: completions + 1 <= reloads <= calls of push <= 1 + pushes
    started (the 1 is the push of the startup). *)
Theorem reload_between_push_and_completion c g w :
  reachable c g w ->
  performed (isSendOn pushDone) w + 1 <= performed isSendReload w
  ∧ performed isSendReload w <= performed isPush w
  ∧ performed isPush w <= 1 + pushesStarted w.
Proof.
  intros Hreach. pose proof (invariant_reachable _ _ _ Hreach) as Hinv.
  destruct (ledger_reachable _ _ _ Hreach) as (H1 & _ & H3 & H4).
  unfold invariant in Hinv. unfold pending, inFlight in *.
  destruct (watcherState (globals w)).
  1,2: destruct Hinv as [_ Hgs]; rewrite Hgs in *; cbn in *; lia.
  all: destruct Hinv as [_ (r & Hgs & [[call ->]|[->| ->]])];
    rewrite Hgs in *; cbn in *;
    repeat first [rewrite decide_True in * by done
                 |rewrite decide_False in * by done];
    cbn in *; lia.
Qed.

(** *** The flags *)

Lemma pushCalls_snoc (es : list Effect) (e : Effect) :
  pushCalls (es ++ [e]) =
  pushCalls es ++ match e with push call => [call] | _ => [] end.
Proof. unfold pushCalls. rewrite flat_map_app. cbn. by rewrite app_nil_r. Qed.

Lemma pushCalls_details c ei (es : list Effect) :
  pushCalls (es ++ details c ei) = pushCalls es.
Proof.
  unfold details. destruct (Verbose (args c)).
  - by rewrite pushCalls_snoc, app_nil_r.
  - by rewrite app_nil_r.
Qed.

Lemma flagsKept_start c g w0 :
  watcherState g = waiting -> Action c g = Watching w0 -> flagsKept c g w0.
Proof.
  intros Hg Hw0. rewrite (start_world _ _ _ Hw0). unfold flagsKept.
  cbn [globals goroutines trace timers now].
  split; [by rewrite setState_same|]. split; [done|].
  split; [by exists 0|done].
Qed.

Lemma flagsKept_step c g l w w' :
  invariant w -> flagsKept c g w -> step c l w = Some w' -> flagsKept c g w'.
Proof.
  intros Hinv (Hg & Hgo & (n & Hcalls) & Hdue). unfold invariant in Hinv.
  destruct w as [[ap nb tm st] p t ts gs tr].
  destruct g as [gap gnb gtm gst]. cbn in Hinv, Hg, Hgo, Hdue.
  cbn [trace] in Hcalls.
  injection Hg as -> -> ->. unfold flagsKept.
  destruct l as [d|[ei| |]|k]; cbn [step].
  - intros [= <-]. fields. split; [done|]. split; [done|].
    split; [by exists n|]. eapply Forall_impl; [exact Hdue|].
    intros [due ch]; cbn. lia.
  - intros [= <-]. destruct (relevant p ei) eqn:Hrel.
    + rewrite deliver_relevant by done.
      destruct st; fields;
        rewrite ?pushCalls_snoc, pushCalls_details, ?app_nil_r;
        (split; [done|]); (split; [done|]);
        (split; [by exists n|]); try done.
      destruct Hinv as [-> _]. constructor; [cbn; lia|done].
    + rewrite deliver_discarded by done. fields.
      split; [done|]. split; [done|]. split; [|done]. exists n.
      rewrite <- Hcalls.
      destruct (filepath_Rel p (Path ei)); [|destruct (Verbose (args c))];
        by rewrite ?app_nil_r, ?pushCalls_snoc, pushCalls_details,
             ?app_nil_r.
  - destruct st; cbn [timers].
    2: { destruct Hinv as [[due ->] ->]. rewrite takeTimer_single.
         destruct (due <=? _)%N; [|done]. intros [= <-].
         rewrite deliver_InitialDelayDone. fields.
         rewrite !pushCalls_snoc, !app_nil_r.
         split; [done|]. split; [|split; [by exists n|done]].
         constructor; [by exists 0|done]. }
    all: destruct Hinv as [-> _]; done.
  - destruct st; cbn [goroutines].
    1,2: destruct Hinv as [_ ->]; done.
    all: destruct Hinv as [-> (r & -> & Hr)];
      destruct (takeSender_pushGoroutine _ Hr) as [[-> ->]|[_ ->]];
      [|done]; intros [= <-]; rewrite deliver_PushDone; fields;
      first [rewrite decide_False by done|rewrite decide_True by done];
      fields; rewrite !pushCalls_snoc, !app_nil_r;
      (split; [done|]); (split; [|split; [by exists n|done]]).
    + done.
    + constructor; [by exists 0|done].
  - cbn [goroutines].
    destruct (gs !! k) as [[|e rest]|] eqn:Hk; try done.
    destruct (isSend e) eqn:He; [done|]. intros [= <-].
    destruct st.
    1,2: destruct Hinv as [_ ->]; done.
    all: destruct Hinv as [-> (r & -> & Hr)];
      (destruct k as [|k]; [|done]); cbn in Hk; injection Hk as ->;
      apply Forall_cons in Hgo as [[k Hk] _];
      destruct k as [|[|[|k]]]; cbn in Hk; rewrite ?drop_nil in Hk;
      try discriminate Hk;
      injection Hk as -> ->; try discriminate He;
      cbn [list_insert insert]; fields;
      rewrite !pushCalls_snoc, ?app_nil_r;
      (split; [done|]);
      (split; [constructor; [|done]|split; [|done]]).
    + by exists 1.
    + exists (S n). by rewrite Hcalls, replicate_S_end.
    + by exists 2.
    + by exists n.
    + by exists 1.
    + exists (S n). by rewrite Hcalls, replicate_S_end.
    + by exists 2.
    + by exists n.
Qed.

Lemma flagsKept_reachable c g w : reachable c g w -> flagsKept c g w.
Proof.
  intros (Hg & w0 & ls & Hstart & Hrun).
  pose proof (invariant_start _ _ _ Hg Hstart) as Hinv.
  pose proof (flagsKept_start _ _ _ Hg Hstart) as Hkept.
  clear Hstart. revert w0 Hinv Hkept Hrun.
  induction ls as [|l ls IH]; intros w0 Hinv Hkept; cbn.
  - by intros [= <-].
  - destruct (step c l w0) as [w1|] eqn:Hstep; [|done].
    apply IH; [by eapply invariant_step|by eapply flagsKept_step].
Qed.

Lemma length_pushCalls (es : list Effect) :
  length (pushCalls es) = length (filter (fun e => isPush e = true) es).
Proof.
  induction es as [|e es IH]; [done|].
  rewrite filter_cons. change (pushCalls (e :: es))
    with (match e with push call => [call] | _ => [] end ++ pushCalls es).
  destruct e; cbn [isPush];
    first [rewrite decide_True by done | rewrite decide_False by done];
    cbn; by rewrite IH.
Qed.

(** X7. The loop never modifies the flags, and every call of [push] in a
    session is made with them: the first call is the one of the startup
    (third argument [false]); every later one is a change-triggered call
    (third argument [true]); all have the parsed [appPath] and [timeout],
    the wait of 180 and the captured arguments. There are at most as
    many later calls as pushes started. *)
Theorem pushes_use_parsed_flags c g w :
  reachable c g w ->
  appPath (globals w) = appPath g
  ∧ noBrowser (globals w) = noBrowser g
  ∧ timeout (globals w) = timeout g
  ∧ ∃ n, pushCalls (trace w) =
         pushCall c g true :: replicate n (pushCall c g false)
         ∧ n <= pushesStarted w.
Proof.
  intros Hreach.
  destruct (flagsKept_reachable _ _ _ Hreach) as (Hg & _ & (n & Hcalls) & _).
  destruct (ledger_reachable _ _ _ Hreach) as (_ & _ & H3 & _).
  rewrite Hg. cbn [appPath noBrowser timeout setState].
  repeat (split; [done|]). exists n. split; [done|].
  unfold performed in H3. rewrite <- length_pushCalls, Hcalls in H3.
  cbn [length] in H3. rewrite length_replicate in H3. lia.
Qed.

(** X8. A timer is pending only while the loop is in [initialDelay]; it
    sends on [initialDelayDone] and is due at most 100ms from now: the
    debounce never delays a push by more than 100ms after the loop took
    the first notification. *)
Theorem pending_timer_due_within_100ms c g w due ch :
  reachable c g w ->
  (due, ch) ∈ timers w ->
  ch = initialDelayDone
  ∧ (due <= now w + 100)%N
  ∧ watcherState (globals w) = initialDelay
  ∧ timers w = [(due, ch)].
Proof.
  intros Hreach Hin.
  pose proof (invariant_reachable _ _ _ Hreach) as Hinv.
  destruct (flagsKept_reachable _ _ _ Hreach) as (_ & _ & _ & Hdue).
  pose proof (proj1 (Forall_forall _ _) Hdue _ Hin) as Hle. cbn in Hle.
  unfold invariant in Hinv.
  destruct (watcherState (globals w)).
  2: { destruct Hinv as [[due' Hts] _]. rewrite Hts in Hin |- *.
       apply list_elem_of_singleton in Hin as [= -> ->]. done. }
  all: destruct Hinv as [Hts _]; rewrite Hts in Hin;
    by apply elem_of_nil in Hin.
Qed.

(** *** No push without a change *)

Lemma step_owed c l w w' :
  invariant w -> step c l w = Some w' ->
  pushesStarted w' + changePending w'
  <= pushesStarted w + changePending w
     + (if isRelevantNotification (absPath w) l then 1 else 0).
Proof.
  intros Hinv Hstep. pose proof (step_cases _ _ _ _ Hinv Hstep) as Hc.
  unfold changePending.
  destruct l as [d|[ei| |]|k]; cbn [isRelevantNotification].
  - destruct Hc as (-> & _ & -> & _). lia.
  - clear Hc. cbn [step] in Hstep. injection Hstep as <-.
    destruct (relevant (absPath w) ei) eqn:Hrel.
    + rewrite deliver_relevant by done.
      destruct (watcherState (globals w)) eqn:Hst; fields; rewrite ?Hst;
        tally; lia.
    + rewrite deliver_discarded by done. fields.
      assert (pushesStarted
                {| globals := globals w; absPath := absPath w; now := now w;
                   timers := timers w; goroutines := goroutines w;
                   trace :=
                     (trace w ++ details c ei) ++
                     match filepath_Rel (absPath w) (Path ei) with
                     | inl _ =>
                       [log_Printf
                          ("Error obtaining relative file path to %s"
                           +:+ newline) [Str (Path ei)]]
                     | inr _ =>
                       if Verbose (args c)
                       then [log_Println [Str "Ignoring file changes:";
                                          Str (Path ei)]]
                       else []
                     end |} = pushesStarted w) as ->; [|lia].
      destruct (filepath_Rel _ _); [by tally|].
      destruct (Verbose (args c)); by tally.
  - destruct Hc as (-> & -> & -> & _). lia.
  - destruct Hc as (_ & _ & _ & [(-> & -> & ->)|(-> & -> & ->)]); lia.
  - destruct Hc as (-> & _ & -> & _). lia.
Qed.

(** X12. The loop starts no push without a change: along any session,
    the pushes started, plus one while a change is still waiting for its
    push, never exceed the relevant notifications the loop has taken. *)
Theorem no_push_without_change c g w0 ls w :
  watcherState g = waiting ->
  Action c g = Watching w0 ->
  run c ls w0 = Some w ->
  pushesStarted w + changePending w <= relevantTaken (absPath w0) ls.
Proof.
  intros Hg Hstart Hrun.
  pose proof (invariant_start _ _ _ Hg Hstart) as Hinv.
  assert (pushesStarted w0 + changePending w0 = 0) as Hzero.
  { rewrite (start_world _ _ _ Hstart). unfold changePending, pushesStarted.
    cbn [globals trace]. rewrite Hg. cbn.
    repeat first [rewrite decide_True by done | rewrite decide_False by done].
    done. }
  enough (pushesStarted w + changePending w
          <= pushesStarted w0 + changePending w0
             + relevantTaken (absPath w0) ls) by lia.
  clear Hzero Hstart. revert w0 Hinv Hrun.
  induction ls as [|l ls IH]; intros w0 Hinv; cbn [run].
  - intros [= <-]. lia.
  - destruct (step c l w0) as [w1|] eqn:Hstep; [|done]. intros Hrun.
    pose proof (step_owed _ _ _ _ Hinv Hstep) as Hone.
    destruct (step_frame _ _ _ _ Hstep) as [_ Hpath].
    pose proof (IH w1 (invariant_step _ _ _ _ Hinv Hstep) Hrun) as Hrest.
    rewrite Hpath in Hrest. unfold relevantTaken in *.
    rewrite filter_cons.
    destruct (isRelevantNotification (absPath w0) l);
      [rewrite decide_True by done|rewrite decide_False by done];
      cbn [length]; lia.
Qed.

End WithHost.

(** *** On the sample host *)

Import Sample.

Lemma no_push_without_change_witness :
  Action captured flags = Watching start
  ∧ run captured (toPushing ++ duringPush) start = Some flaggedWorld
  ∧ pushesStarted flaggedWorld + changePending flaggedWorld <= 3.
Proof.
  assert (run captured (toPushing ++ duringPush) start = Some flaggedWorld)
    as Hrun by (vm_compute; reflexivity).
  split; [exact start_is_started|]. split; [exact Hrun|].
  exact (no_push_without_change (H := host) captured flags start
           (toPushing ++ duringPush) flaggedWorld eq_refl start_is_started
           Hrun).
Defined.

Lemma idle_without_change_witness :
  reachable captured flags start
  ∧ run captured noise start = Some (after noise)
  ∧ globals (after noise) = globals start
  ∧ pushesStarted (after noise) = 0.
Proof.
  assert (reachable captured flags start) as Hreach
    by (apply (after_reachable []); reflexivity).
  assert (run captured noise start = Some (after noise)) as Hrun
    by (vm_compute; reflexivity).
  split; [exact Hreach|]. split; [exact Hrun|].
  destruct (idle_without_change (H := host) captured flags noise start
              (after noise) Hreach eq_refl eq_refl Hrun)
    as (Hg & _ & _ & Hp & _).
  split; [exact Hg|exact Hp].
Defined.

Lemma quiet_push_returns_to_idle_witness :
  reachable captured flags pushingWorld
  ∧ run captured quietPush pushingWorld = Some quietWorld
  ∧ step captured (Receive PushDone) quietWorld = Some idleAgain
  ∧ globals idleAgain = setState waiting (globals pushingWorld)
  ∧ inFlight idleAgain = 0.
Proof.
  assert (reachable captured flags pushingWorld) as Hreach
    by (apply (after_reachable toPushing); vm_compute; reflexivity).
  assert (run captured quietPush pushingWorld = Some quietWorld) as Hrun
    by (vm_compute; reflexivity).
  assert (step captured (Receive PushDone) quietWorld = Some idleAgain)
    as Hstep by (vm_compute; reflexivity).
  split; [exact Hreach|]. split; [exact Hrun|]. split; [exact Hstep|].
  destruct (quiet_push_returns_to_idle (H := host) captured flags quietPush
              pushingWorld quietWorld idleAgain Hreach eq_refl eq_refl
              eq_refl Hrun Hstep)
    as (_ & Hg & _ & _ & Hf & _).
  split; [exact Hg|exact Hf].
Defined.

Lemma change_not_lost_witness :
  reachable captured flags pushingWorld
  ∧ relevant (absPath pushingWorld) (changed "/main.js") = true
  ∧ watcherState
      (globals (after (toPushing ++
                       [Receive (FileWatch (changed "/main.js")); Tick 7])))
    ≠ waiting.
Proof.
  assert (reachable captured flags pushingWorld) as Hreach
    by (apply (after_reachable toPushing); vm_compute; reflexivity).
  split; [exact Hreach|]. split; [reflexivity|].
  destruct (change_not_lost (H := host) captured flags (changed "/main.js")
              [Tick 7] pushingWorld
              (after (toPushing ++
                      [Receive (FileWatch (changed "/main.js")); Tick 7]))
              Hreach eq_refl)
    as [[Hst _]|[Hst _]].
  - vm_compute. reflexivity.
  - vm_compute. reflexivity.
  - rewrite Hst. discriminate.
  - rewrite Hst. discriminate.
Defined.

Lemma change_leads_to_push_witness :
  reachable captured flags pushingWorld
  ∧ relevant (absPath pushingWorld) (changed "/main.js") = true
  ∧ ∃ w',
      run captured
          (Receive (FileWatch (changed "/main.js"))
           :: untilNextPush
                (deliver captured (FileWatch (changed "/main.js"))
                         pushingWorld))
          pushingWorld = Some w'
      ∧ pushesStarted w' = S (pushesStarted pushingWorld).
Proof.
  assert (reachable captured flags pushingWorld) as Hreach
    by (apply (after_reachable toPushing); vm_compute; reflexivity).
  split; [exact Hreach|]. split; [reflexivity|].
  destruct (change_leads_to_push (H := host) captured flags
              (changed "/main.js") pushingWorld Hreach eq_refl)
    as (w' & Hrun & Hp & _).
  exists w'. split; [exact Hrun|exact Hp].
Defined.

Lemma starts_are_completions_plus_in_flight_witness :
  reachable captured flags restartedWorld
  ∧ pushesStarted restartedWorld
    = performed (isSendOn pushDone) restartedWorld + inFlight restartedWorld.
Proof.
  assert (reachable captured flags restartedWorld) as Hreach
    by (apply (after_reachable
                 (toPushing ++ duringPush ++ [Receive PushDone]));
        vm_compute; reflexivity).
  split; [exact Hreach|].
  exact (proj1 (starts_are_completions_plus_in_flight (H := host) captured
                  flags restartedWorld Hreach)).
Defined.

Lemma reload_between_push_and_completion_witness :
  reachable captured flags idleAgain
  ∧ performed (isSendOn pushDone) idleAgain + 1
    <= performed isSendReload idleAgain.
Proof.
  assert (reachable captured flags idleAgain) as Hreach
    by (apply (after_reachable
                 (toPushing ++ quietPush ++ [Receive PushDone]));
        vm_compute; reflexivity).
  split; [exact Hreach|].
  exact (proj1 (reload_between_push_and_completion (H := host) captured
                  flags idleAgain Hreach)).
Defined.

Lemma pushes_use_parsed_flags_witness :
  reachable captured flags restartedWorld
  ∧ timeout (globals restartedWorld) = 10%Z
  ∧ noBrowser (globals restartedWorld) = true.
Proof.
  assert (reachable captured flags restartedWorld) as Hreach
    by (apply (after_reachable
                 (toPushing ++ duringPush ++ [Receive PushDone]));
        vm_compute; reflexivity).
  split; [exact Hreach|].
  destruct (pushes_use_parsed_flags (H := host) captured flags
              restartedWorld Hreach) as (_ & Hnb & Htm & _).
  split; [exact Htm|exact Hnb].
Defined.

Lemma pending_timer_due_within_100ms_witness :
  reachable captured flags
            (after [Receive (FileWatch (changed "/main.js")); Tick 40])
  ∧ (100 <= now (after [Receive (FileWatch (changed "/main.js")); Tick 40])
            + 100)%N.
Proof.
  assert (reachable captured flags
            (after [Receive (FileWatch (changed "/main.js")); Tick 40]))
    as Hreach
    by (apply (after_reachable
                 [Receive (FileWatch (changed "/main.js")); Tick 40]);
        vm_compute; reflexivity).
  split; [exact Hreach|].
  refine (proj1 (proj2 (pending_timer_due_within_100ms (H := host) captured
                          flags _ 100%N initialDelayDone Hreach _))).
  vm_compute. apply list_elem_of_here.
Defined.

Example pushCalls_restartedWorld :
  pushCalls (trace restartedWorld) =
  [pushCall captured flags true; pushCall captured flags false].
Proof. vm_compute. reflexivity. Qed.

End appixMore.

(** ** More on [UploadToFrontend] *)
Module appcatalogMore.

Import GoStrings appcatalog.

Section WithFrontend.

Context `{Frontend}.

(** X9. When every call succeeds but the decoded answer has no [links]
    entry, or its [links] entry has no [progress] key, the upload is
    rejected with the "did not return a valid response" error and the
    empty address: a missing key reads as the empty string. *)
Theorem missing_link_is_rejected
    (uploadURI zapFile appName sessionID : string) (verbose : bool)
    request response responseBody
    (responseObject : gmap string (gmap string string)) :
  CreateMultiFileUploadRequest uploadURI {[ "file" := zapFile ]}
                               {[ "name" := appName ]} verbose
    = inr request ->
  client_Do request = inr response ->
  StatusCode response = StatusOK ->
  Body response = inr responseBody ->
  json_Unmarshal responseBody = inr responseObject ->
  responseObject !! "links" = None
  ∨ (∃ links : gmap string string,
       responseObject !! "links" = Some links ∧ links !! "progress" = None) ->
  (UploadToFrontend uploadURI zapFile appName sessionID verbose).2 =
  ("", Some (Errorf "Uploading failed, the app catalog did not return a valid response" [])).
Proof.
  intros Hreq Hdo Hst Hbody Hjson Hmissing. unfold UploadToFrontend.
  rewrite Hreq, Hdo, Hbody, Hjson.
  rewrite bool_decide_eq_false_2 by (intros Hne; by apply Hne).
  assert (progressOf responseObject = "") as ->.
  { unfold progressOf.
    destruct Hmissing as [->|(links & -> & Hp)]; cbn [from_option id];
      [by rewrite lookup_empty|by rewrite Hp]. }
  done.
Qed.

(** X10. [verbose] changes only what is logged: if the request builder
    gives the same outcome with and without it, the address and the error
    returned are the same. *)
Theorem verbose_only_changes_the_log
    (uploadURI zapFile appName sessionID : string) :
  CreateMultiFileUploadRequest uploadURI {[ "file" := zapFile ]}
                               {[ "name" := appName ]} true
  = CreateMultiFileUploadRequest uploadURI {[ "file" := zapFile ]}
                                 {[ "name" := appName ]} false ->
  (UploadToFrontend uploadURI zapFile appName sessionID true).2 =
  (UploadToFrontend uploadURI zapFile appName sessionID false).2.
Proof.
  intros Hsame. unfold UploadToFrontend. rewrite Hsame. clear Hsame.
  destruct (CreateMultiFileUploadRequest _ _ _ _) as [|request]; [done|].
  destruct (client_Do request) as [|response]; [done|].
  case_bool_decide; [done|].
  destruct (Body response) as [|responseBody]; [done|].
  destruct (json_Unmarshal responseBody) as [|responseObject]; [done|].
  by case_bool_decide.
Qed.

Ltac absent verbose :=
  let Hin := fresh "Hin" in
  split; [|done]; split; [|done]; destruct verbose; cbn; intros Hin;
  repeat (apply elem_of_cons in Hin as [[=]|Hin]);
  by apply elem_of_nil in Hin.

(** X11. The line "The app has been uploaded to the frontend
    successfully." is logged exactly when the returned error is nil,
    verbose or not, and then it is the last line. *)
Theorem success_line_iff_nil_error
    (uploadURI zapFile appName sessionID : string) (verbose : bool) :
  let '(log, (_, err)) :=
    UploadToFrontend uploadURI zapFile appName sessionID verbose in
  (Println "The app has been uploaded to the frontend successfully." ∈ log
   ↔ err = None)
  ∧ (err = None ->
     last log
     = Some (Println "The app has been uploaded to the frontend successfully.")).
Proof.
  unfold UploadToFrontend.
  destruct (CreateMultiFileUploadRequest _ _ _ _) as [|request].
  { absent verbose. }
  destruct (client_Do request) as [|response].
  { absent verbose. }
  case_bool_decide.
  { absent verbose. }
  destruct (Body response) as [|responseBody].
  { absent verbose. }
  destruct (json_Unmarshal responseBody) as [|responseObject].
  { absent verbose. }
  case_bool_decide.
  { absent verbose. }
  split.
  - split; [done|]. intros _. apply elem_of_app. right. apply list_elem_of_here.
  - intros _. by rewrite last_snoc.
Qed.

End WithFrontend.

Import Sample.

Lemma missing_link_is_rejected_witness :
  @json_Unmarshal linkless "{}" = inr ∅
  ∧ (@UploadToFrontend linkless "https://frontend/upload" "app.zap" "app"
                       "123" false).2
    = ("", Some (Errorf "Uploading failed, the app catalog did not return a valid response" [])).
Proof.
  split; [reflexivity|].
  apply (missing_link_is_rejected (H := linkless) "https://frontend/upload"
           "app.zap" "app" "123" false "https://frontend/upload"
           {| StatusCode := 200; Body := inr "{}" |} "{}" ∅);
    try reflexivity.
  left. apply lookup_empty.
Defined.

Lemma verbose_only_changes_the_log_witness :
  (@UploadToFrontend frontend "https://frontend/upload" "app.zap" "app"
                     "123" true).2
  = (@UploadToFrontend frontend "https://frontend/upload" "app.zap" "app"
                       "123" false).2.
Proof.
  apply (verbose_only_changes_the_log (H := frontend)
           "https://frontend/upload" "app.zap" "app" "123").
  reflexivity.
Defined.

End appcatalogMore.
